(** * instructor_cookbooks: a shallow embedding of the notebooks' glue code

    Each notebook declares a small pydantic schema, calls a hosted model and
    post-processes the parsed record.  This development embeds the
    post-processing code (citation validation, PII scrubbing, graph
    rendering, knowledge-graph merging, moderation, classification, document
    segmentation, table conversion) and proves the properties the
    specification states about it.

    Conventions.  A Python [str] is a [string], and the list of its code
    points where the code inspects its characters; a Python [int] is a [Z]; a
    position produced by [enumerate] or by a regex match is a [nat]; a
    [dict] is a [gmap]; a raised exception is the [Raise] branch of
    [result]; code that prints or mutates an object threads the object
    explicitly through the [State] monad. *)

From Stdlib Require Import Ascii.
From stdpp Require Import base option list gmap strings pretty sorting.

(** ** Python prelude *)

Module Py.

(** Exceptions that the embedded code can raise. *)
Inductive exn : Type :=
| AttributeError (msg : string)
| TypeError (msg : string)
| ValidationError (msg : string).

Inductive result (A : Type) : Type :=
| Ok (a : A)
| Raise (e : exn).
Global Arguments Ok {A} a.
Global Arguments Raise {A} e.

Global Instance result_ret : MRet result := λ A a, Ok a.
Global Instance result_bind : MBind result := λ A B f m,
  match m with Ok a => f a | Raise e => Raise e end.

Definition succeeds {A} (m : result A) : Prop := ∃ a, m = Ok a.
Definition fails {A} (m : result A) : Prop := ∃ e, m = Raise e.

(** The dynamically typed values that reach the embedded code. *)
Inductive val : Type :=
| PyNone
| PyStr (s : string)
| PyInt (z : Z).

(** State-passing for code that mutates one object (a [Digraph], the
    standard output). *)
Definition State (S A : Type) : Type := S → A * S.
Definition sret {S A} (a : A) : State S A := λ s, (a, s).
Definition sbind {S A B} (m : State S A) (k : A → State S B) : State S B :=
  λ s, let '(a, s') := m s in k a s'.
Definition exec {S A} (m : State S A) (s : S) : S := snd (m s).

(** [for x in xs: body x] *)
Fixpoint for_each {S A} (xs : list A) (body : A → State S unit) : State S unit :=
  match xs with
  | [] => sret ()
  | x :: xs' => sbind (body x) (λ _, for_each xs' body)
  end.

(** [print(line)] appends one line to the standard output. *)
Definition print (line : string) : State (list string) unit :=
  λ out, ((), out ++ [line]).

(** [str(i)] for an [int], and the formatting of an [enumerate] counter. *)
Definition str_of_int (z : Z) : string := pretty z.
Definition str_of_nat (n : nat) : string := pretty n.

Definition NL : string := String "010"%char "".

(** [s[a:b]] for indices [0 <= a], [0 <= b]; Python clamps at the end of
    the string. *)
Definition slice (s : string) (a b : nat) : string :=
  String.substring a (b - a) s.

(** [v[a:b]] on a dynamically typed value. *)
Definition getslice (v : val) (a b : nat) : result string :=
  match v with
  | PyStr s => Ok (slice s a b)
  | PyNone => Raise (TypeError "'NoneType' object is not subscriptable")
  | PyInt _ => Raise (TypeError "'int' object is not subscriptable")
  end.

(** [re.finditer(re.escape(quote), context)] as the list of its
    [match.span()]s.  An escaped pattern matches its own text and nothing
    else, so the scan is a literal search: leftmost match first, the next
    search starts where the previous match ended, and an empty pattern
    matches once at every position including the end.  [pos] is the
    position of [context] in the whole text and [skip] the number of
    characters still covered by the previous match. *)
Fixpoint finditer_go (quote context : string) (pos skip : nat) : list (nat * nat) :=
  match skip with
  | S k =>
      match context with
      | EmptyString => []
      | String _ rest => finditer_go quote rest (S pos) k
      end
  | O =>
      if String.prefix quote context then
        (pos, pos + String.length quote) ::
        match context with
        | EmptyString => []
        | String _ rest => finditer_go quote rest (S pos) (pred (String.length quote))
        end
      else
        match context with
        | EmptyString => []
        | String _ rest => finditer_go quote rest (S pos) 0
        end
  end.

Definition finditer_escape (quote context : string) : list (nat * nat) :=
  finditer_go quote context 0 0.

(** [s.replace(old, new)]: every non-overlapping occurrence of [old],
    scanning from the left, is replaced by [new]; an empty [old] inserts
    [new] before every character and at the end. *)
Fixpoint replace_go (old new s : string) (skip : nat) : string :=
  match skip with
  | S k =>
      match s with
      | EmptyString => EmptyString
      | String _ rest => replace_go old new rest k
      end
  | O =>
      if String.prefix old s then
        new +:+
        match s with
        | EmptyString => EmptyString
        | String c rest =>
            match old with
            | EmptyString => String c (replace_go old new rest 0)
            | String _ old' => replace_go old new rest (String.length old')
            end
        end
      else
        match s with
        | EmptyString => EmptyString
        | String c rest => String c (replace_go old new rest 0)
        end
  end.

Definition replace (s old new : string) : string := replace_go old new s 0.

(** [s.split(sep)] for a one-character separator: always at least one
    field, an empty string splits into one empty field. *)
Fixpoint split (sep : ascii) (s : string) : list string :=
  match s with
  | EmptyString => [EmptyString]
  | String c rest =>
      if decide (c = sep) then EmptyString :: split sep rest
      else match split sep rest with
           | [] => [String c EmptyString]
           | field :: fields => String c field :: fields
           end
  end.

(** Where the code looks at the characters of a [str] themselves
    ([str.strip]), the [str] is the list of its Unicode code points.  A
    literal of the development (plain ASCII) stands for the [str] with the
    codes of its characters. *)
Definition codepoint : Type := N.
Definition unicode : Type := list codepoint.

Fixpoint unicode_of_string (s : string) : unicode :=
  match s with
  | EmptyString => []
  | String c rest => N_of_ascii c :: unicode_of_string rest
  end.
Coercion unicode_of_string : string >-> unicode.

(** [c.isspace()], which is also what [str.strip()] removes: the
    interpreter's table of whitespace code points.  These are tab to
    carriage return, the separators 28 to 31, the space, next line
    (U+0085), the no-break space (U+00A0), the ogham space mark (U+1680),
    en quad to hair space (U+2000 to U+200A), the line and paragraph
    separators (U+2028, U+2029), the narrow no-break space (U+202F), the
    medium mathematical space (U+205F) and the ideographic space
    (U+3000). *)
Definition isspace (c : codepoint) : bool :=
  ((9 <=? c) && (c <=? 13) || (28 <=? c) && (c <=? 32)
   || (c =? 133) || (c =? 160) || (c =? 5760)
   || (8192 <=? c) && (c <=? 8202)
   || (c =? 8232) || (c =? 8233) || (c =? 8239) || (c =? 8287) || (c =? 12288))%N.
Global Arguments isspace c%_N.

(** [sep.join(parts)] *)
Definition join (sep : string) (parts : list string) : string :=
  String.concat sep parts.

(** [range(a, b)] over Python ints. *)
Definition range (a b : Z) : list Z := seqZ a (b - a).

(** [list(enumerate(xs))] *)
Definition enumerate {A} (xs : list A) : list (nat * A) := imap (λ i x, (i, x)) xs.

(** *** Vocabulary of the statements *)

(** [quote] occurs in [s] at offset [i]; [occurs quote s] is Python's
    [quote in s]. *)
Definition occurs_at (quote s : string) (i : nat) : Prop :=
  ∃ pre post, s = pre +:+ quote +:+ post ∧ String.length pre = i.
Definition occurs (quote s : string) : Prop := ∃ i, occurs_at quote s i.

(** Span [a] ends before span [b] starts, and starts earlier. *)
Definition span_before (a b : nat * nat) : Prop := a.2 ≤ b.1 ∧ a.1 < b.1.

(** A computation whose only effect is to append [out] to the object it
    threads. *)
Definition appends {St A} (m : State (list St) A) (out : list St) : Prop :=
  ∀ s, exec m s = s ++ out.

End Py.

(** ** 04_exact_citations: answers with validated citations *)

Module ExactCitations.
Import Py.

Record Fact : Type := mkFact {
  fact : string;
  substring_quote : list string;
}.

Record QuestionAnswer : Type := mkQuestionAnswer {
  question : string;
  answer : list Fact;
}.

(** [info.context]: [None] when validation runs without a context,
    otherwise the context dictionary. *)
Definition ValidationInfo : Type := option (gmap string val).

(** [Fact._get_span]: the generator is forced by [list(...)] in
    [validate_sources], so it is embedded as the list it yields;
    [re.finditer] raises on a context that is not text. *)
Definition _get_span (quote : string) (context : val) : result (list (nat * nat)) :=
  match context with
  | PyStr c => Ok (finditer_escape quote c)
  | PyNone | PyInt _ => Raise (TypeError "expected string or bytes-like object")
  end.

(** [Fact.get_spans] *)
Definition get_spans (self : Fact) (context : val) : result (list (nat * nat)) :=
  spans ← mapM (λ quote, _get_span quote context) (substring_quote self);
  mret (concat spans).

(** [Fact.validate_sources] (model validator, mode "after") *)
Definition Fact_validate_sources (self : Fact) (info : ValidationInfo) : result Fact :=
  context ← match info with
            | Some d => Ok d
            | None => Raise (AttributeError "'NoneType' object has no attribute 'get'")
            end;
  let text_chunks := default PyNone (context !! "text_chunk") in
  spans ← get_spans self text_chunks;
  quotes ← mapM (λ span : nat * nat, getslice text_chunks span.1 span.2) spans;
  mret {| fact := fact self; substring_quote := quotes |}.

(** [QuestionAnswer.validate_sources] (model validator, mode "after") *)
Definition QuestionAnswer_validate_sources (self : QuestionAnswer) : result QuestionAnswer :=
  mret {| question := question self;
          answer := filter (λ f, 0 < length (substring_quote f)) (answer self) |}.

(** Construction of a [Fact] from well-typed field values: the field
    checks pass and the "after" validator runs. *)
Definition Fact_model_validate (data : Fact) (info : ValidationInfo) : result Fact :=
  Fact_validate_sources data info.

(** Construction of a [QuestionAnswer] from parsed field data, as the
    client does with the model's answer: every element of [answer] is
    validated as a [Fact] with the same context, in list order, and then
    the model's own validator runs. *)
Definition QuestionAnswer_model_validate
    (data : QuestionAnswer) (info : ValidationInfo) : result QuestionAnswer :=
  facts ← mapM (λ f, Fact_model_validate f info) (answer data);
  QuestionAnswer_validate_sources {| question := question data; answer := facts |}.

(** The validation context that [ask_ai] passes to the client. *)
Definition ask_ai_validation_context (context : string) : ValidationInfo :=
  Some {[ "text_chunk" := PyStr context ]}.

(** The context substrings at the spans of the claimed quotes. *)
Definition cited (context : string) (quotes : list string) : list string :=
  map (λ span : nat * nat, slice context span.1 span.2)
      (concat (map (λ quote, finditer_escape quote context) quotes)).

(** The validation context holds a string under the key "text_chunk". *)
Definition supplies_text_chunk (info : ValidationInfo) : Prop :=
  ∃ d context, info = Some d ∧ d !! "text_chunk" = Some (PyStr context).

End ExactCitations.

(** ** 09_pii: PII extraction and scrubbing *)

Module PII.
Import Py.

Record Data : Type := mkData {
  index : Z;
  data_type : string;
  pii_value : string;
}.

Record PIIDataExtraction : Type := mkPIIDataExtraction {
  private_data : list Data;
}.

(** The placeholder [f"<{data.data_type}_{i}>"]. *)
Definition placeholder (data : Data) (i : nat) : string :=
  "<" +:+ data_type data +:+ "_" +:+ str_of_nat i +:+ ">".

(** [PIIDataExtraction.scrub_data]: the loop over
    [enumerate(self.private_data)] rebinding [content]. *)
Definition scrub_data (self : PIIDataExtraction) (content : string) : string :=
  foldl (λ content '(i, data), replace content (pii_value data) (placeholder data i))
        content (enumerate (private_data self)).

(** The scrubbing procedure in the specification's words: for
    [i = 0, 1, ...], in list order, every literal occurrence of the
    [i]-th value in the running document is replaced by
    ["<" + data_type + "_" + i + ">"].  It reads the type and the value of
    an entry and nothing else. *)
Definition entry_of (data : Data) : string * string := (data_type data, pii_value data).

Fixpoint scrub_upto (n : nat) (entries : list (string * string)) (document : string)
    : string :=
  match n with
  | 0 => document
  | S i =>
      let running := scrub_upto i entries document in
      match entries !! i with
      | Some (type_name, value) =>
          replace running value ("<" +:+ type_name +:+ "_" +:+ str_of_nat i +:+ ">")
      | None => running
      end
  end.

Definition scrub_spec (entries : list (string * string)) (document : string) : string :=
  scrub_upto (length entries) entries document.

End PII.

(** ** graphviz: the part of [Digraph] the notebooks use *)

Module Graphviz.
Import Py.

(** A [Digraph] accumulates statements in its [body], in call order;
    [node] and [edge] append one statement each and check nothing. *)
Inductive stmt : Type :=
| NodeStmt (name label : string)
| EdgeStmt (tail_name head_name : string).

Global Instance stmt_eq_dec : EqDecision stmt.
Proof. solve_decision. Defined.

Definition Digraph : Type := list stmt.

Definition new_Digraph : Digraph := [].

Definition node (name label : string) : State Digraph unit :=
  λ body, ((), body ++ [NodeStmt name label]).

Definition edge (tail_name head_name : string) : State Digraph unit :=
  λ body, ((), body ++ [EdgeStmt tail_name head_name]).

(** The node names and the edges a body declares. *)
Definition node_names (dot : Digraph) : list string :=
  omap (λ s, match s with NodeStmt n _ => Some n | EdgeStmt _ _ => None end) dot.

Definition edges (dot : Digraph) : list (string * string) :=
  omap (λ s, match s with EdgeStmt t h => Some (t, h) | NodeStmt _ _ => None end) dot.

End Graphviz.

(** ** 08_entity_resolution: entity graph of a legal document *)

Module EntityResolution.
Import Py Graphviz.

Record Property : Type := mkProperty {
  key : string;
  value : string;
  resolved_absolute_value : string;
}.

Record Entity : Type := mkEntity {
  id : Z;
  subquote_string : list string;
  entity_title : string;
  properties : list Property;
  dependencies : list Z;
}.

Record DocumentExtraction : Type := mkDocumentExtraction {
  entities : list Entity;
}.

Definition generate_html_label (entity : Entity) : string :=
  let rows :=
    map (λ prop, "<tr><td>" +:+ key prop +:+ "</td><td>"
                 +:+ resolved_absolute_value prop +:+ "</td></tr>")
        (properties entity) in
  let table_rows := join "" rows in
  "<<table border='0' cellborder='1' cellspacing='0'><tr><td colspan='2'><b>"
    +:+ entity_title entity +:+ "</b></td></tr>" +:+ table_rows +:+ "</table>>".

(** [generate_graph], up to the call of [dot.render]: the body handed to
    the renderer. *)
Definition generate_graph (data : DocumentExtraction) : Digraph :=
  exec
    (sbind
       (for_each (entities data) (λ entity,
          let label := generate_html_label entity in
          node (str_of_int (id entity)) label))
       (λ _,
        for_each (entities data) (λ entity,
          for_each (dependencies entity) (λ dep_id,
            edge (str_of_int (id entity)) (str_of_int dep_id)))))
    new_Digraph.

(** The statements one entity contributes. *)
Definition entity_node (entity : Entity) : stmt :=
  NodeStmt (str_of_int (id entity)) (generate_html_label entity).
Definition dependency_edges (entity : Entity) : list stmt :=
  map (λ dep_id, EdgeStmt (str_of_int (id entity)) (str_of_int dep_id))
      (dependencies entity).

End EntityResolution.

(** ** action items: tickets extracted from a meeting transcript *)

Module ActionItems.
Import Py Graphviz.

Inductive PriorityEnum : Type := high | medium | low.

Record Subtask : Type := mkSubtask {
  subtask_id : Z;
  subtask_name : string;
}.

Record Ticket : Type := mkTicket {
  id : Z;
  name : string;
  description : string;
  priority : PriorityEnum;
  assignees : list string;
  subtasks : option (list Subtask);
  dependencies : option (list Z);
}.

(** [if xs:] on an optional list: [None] and the empty list are false. *)
Definition if_truthy {S A} (xs : option (list A)) (body : list A → State S unit)
    : State S unit :=
  match xs with
  | None | Some [] => sret ()
  | Some l => body l
  end.

Section Render.
(** How an f-string formats a [PriorityEnum] member depends on the
    interpreter version; the renderer is embedded for any choice. *)
Variable format_priority : PriorityEnum → string.

Definition ticket_label (ticket : Ticket) : string :=
  name ticket +:+ NL +:+ format_priority (priority ticket) +:+ NL
    +:+ join ", " (assignees ticket).

(** The graphviz cell, up to the call of [dot.render]. *)
Definition action_items_graph (prediction : list Ticket) : Digraph :=
  exec
    (for_each prediction (λ ticket,
       sbind (node (str_of_int (id ticket)) (ticket_label ticket)) (λ _,
       sbind (if_truthy (subtasks ticket) (λ sts,
                for_each sts (λ subtask,
                  let sub := str_of_int (id ticket) +:+ "."
                               +:+ str_of_int (subtask_id subtask) in
                  sbind (node sub (subtask_name subtask)) (λ _,
                  edge (str_of_int (id ticket)) sub)))) (λ _,
       if_truthy (dependencies ticket) (λ deps,
         for_each deps (λ dep,
           edge (str_of_int dep) (str_of_int (id ticket))))))))
    new_Digraph.

(** The statements one ticket contributes. *)
Definition subtask_stmts (ticket : Ticket) : list stmt :=
  flat_map (λ subtask,
              let sub := str_of_int (id ticket) +:+ "."
                           +:+ str_of_int (subtask_id subtask) in
              [NodeStmt sub (subtask_name subtask); EdgeStmt (str_of_int (id ticket)) sub])
           (default [] (subtasks ticket)).
Definition dependency_edges (ticket : Ticket) : list stmt :=
  map (λ dep, EdgeStmt (str_of_int dep) (str_of_int (id ticket)))
      (default [] (dependencies ticket)).
Definition ticket_stmts (ticket : Ticket) : list stmt :=
  NodeStmt (str_of_int (id ticket)) (ticket_label ticket)
    :: subtask_stmts ticket ++ dependency_edges ticket.
End Render.

End ActionItems.

(** ** 06_knowledge_graph: merging knowledge graphs *)

Module KnowledgeGraph.

(** [Node] and [Edge] derive from [BaseModelHashable]: the hash is taken
    over the type and the field values and equality is pydantic's
    field-wise equality, so set membership is structural equality of the
    records. *)
Record Node : Type := mkNode {
  id : Z;
  label : string;
  color : string;
}.

Record Edge : Type := mkEdge {
  source : Z;
  target : Z;
  edge_label : string;
  edge_color : string;
}.

Global Instance Node_eq_dec : EqDecision Node.
Proof. solve_decision. Defined.
Global Instance Edge_eq_dec : EqDecision Edge.
Proof. solve_decision. Defined.

Record KnowledgeGraph : Type := mkKnowledgeGraph {
  nodes : list Node;
  edges : list Edge;
}.

Section Update.
(** [list(set(xs))]: the elements of [xs] without duplicates, in the
    iteration order of the hash set, which the language leaves open.
    The order is a parameter of the embedding. *)
Variable list_of_set : ∀ A : Type, EqDecision A → list A → list A.

(** [KnowledgeGraph.update] *)
Definition update (self other : KnowledgeGraph) : KnowledgeGraph :=
  {| nodes := list_of_set Node _ (nodes self ++ nodes other);
     edges := list_of_set Edge _ (edges self ++ edges other) |}.
End Update.

(** What every iteration order satisfies. *)
Definition set_semantics (list_of_set : ∀ A : Type, EqDecision A → list A → list A) : Prop :=
  ∀ (A : Type) (dec : EqDecision A) (xs : list A),
    NoDup (list_of_set A dec xs) ∧ ∀ x, x ∈ list_of_set A dec xs ↔ x ∈ xs.

(** Two admissible orders: first occurrences in insertion order, and the
    reverse of that. *)
Definition insertion_order : ∀ A : Type, EqDecision A → list A → list A :=
  λ A dec xs, reverse (remove_dups (reverse xs)).
Definition reversed_order : ∀ A : Type, EqDecision A → list A → list A :=
  λ A dec xs, remove_dups (reverse xs).

End KnowledgeGraph.

(** ** 11_moderation: a message field checked by the moderation endpoint *)

Module Moderation.
Import Py.

(** One result of [client.moderations.create]: the [flagged] bit and the
    category dictionary in its dump order. *)
Record ModerationResult : Type := mkModerationResult {
  flagged : bool;
  categories : list (string * bool);
}.

Record Response : Type := mkResponse {
  message : string;
}.

Section Endpoint.
(** The hosted moderation endpoint. *)
Variable moderations_create : string → ModerationResult.
(** [str(e)] of a pydantic validation error for one field of a model
    and the message of the [ValueError] the validator raised. *)
Variable validation_error_str : string → string → string → string.

(** instructor's [openai_moderation(client)], the validator the notebook
    attaches to [message]: it returns the value unchanged unless the
    endpoint flags it, and then raises a [ValueError] naming the flagged
    categories (the text the notebook's captured output shows), which
    pydantic reports as a validation error. *)
Definition openai_moderation (v : string) : result string :=
  let out := moderations_create v in
  let cats := categories out in
  if flagged out then
    Raise (ValidationError
             ("`" +:+ v +:+ "` was flagged for "
              +:+ join ", " (map fst (filter (λ cat, snd cat = true) cats))))
  else Ok v.

(** [Response(message=...)]: the annotated field runs the validator
    after the string check. *)
Definition Response_new (msg : string) : result Response :=
  v ← openai_moderation msg;
  mret {| message := v |}.

Definition str_of_exn (e : exn) : string :=
  match e with
  | ValidationError m => validation_error_str "Response" "message" m
  | AttributeError m | TypeError m => m
  end.

(** The cell [try: Response(message=msg) except Exception as e: print(e)] *)
Definition try_Response_cell (msg : string) : State (list string) unit :=
  match Response_new msg with
  | Ok _ => sret ()
  | Raise e => print (str_of_exn e)
  end.
End Endpoint.

(** The text of the [ValueError] for a flagged message. *)
Definition flagged_categories (out : ModerationResult) : list string :=
  map fst (filter (λ cat, snd cat = true) (categories out)).
Definition flag_message (v : string) (out : ModerationResult) : string :=
  "`" +:+ v +:+ "` was flagged for " +:+ join ", " (flagged_categories out).

End Moderation.

(** ** text classification: single-label spam prediction *)

Module Classification.
Import Py.

Record SpamPrediction : Type := mkSpamPrediction {
  label : string;
}.

(** The values of [Literal["spam", "not_spam"]]. *)
Definition SpamPrediction_labels : list string := ["spam"; "not_spam"].

(** Parsing of a [SpamPrediction] from the label the model produced: a
    literal field accepts exactly its listed values. *)
Definition SpamPrediction_model_validate (raw_label : string) : result SpamPrediction :=
  if decide (raw_label ∈ SpamPrediction_labels) then Ok {| label := raw_label |}
  else Raise (ValidationError "Input should be 'spam' or 'not_spam'").

Section Client.
(** The hosted model: the label it writes for a prompt. *)
Variable chat_completion : string → string.

(** [classify]: the client parses the model's answer as a
    [SpamPrediction].  (The return annotation of the source names a class,
    [SinglePrediction], that the notebook does not define; the body is what
    the captured run executed.) *)
Definition classify (data : string) : result SpamPrediction :=
  SpamPrediction_model_validate
    (chat_completion ("Classify the following text: " +:+ data)).

(** The inline check [assert prediction.label == "spam"]. *)
Definition assert_spam (prediction : SpamPrediction) : bool :=
  bool_decide (label prediction = "spam").
End Client.

End Classification.

(** ** 17_document_segmentation: sections by line numbers *)

Module Segmentation.
Import Py.

(** The [Section] model. *)
Record DocSection : Type := mkDocSection {
  title : string;
  start_index : Z;
  end_index : Z;
}.

Record StructuredDocument : Type := mkStructuredDocument {
  sections : list DocSection;
}.

(** One of the dictionaries [get_sections_text] appends. *)
Record Segment : Type := mkSegment {
  seg_title : string;
  seg_content : string;
  seg_start : Z;
  seg_end : Z;
}.

(** [doc_with_lines]: the numbered document and the dictionary from line
    number to line text. *)
Definition doc_with_lines (document : string) : string * gmap Z string :=
  let document_lines := split "010" document in
  foldl (λ '(document_with_line_numbers, line2text) '(i, line),
           (document_with_line_numbers +:+ "[" +:+ str_of_nat i +:+ "] " +:+ line +:+ NL,
            <[Z.of_nat i := line]> line2text))
        ("", ∅) (enumerate document_lines).

(** [get_sections_text] *)
Definition get_sections_text
    (structured_doc : StructuredDocument) (line2text : gmap Z string) : list Segment :=
  map (λ s,
         let contents :=
           map (λ line_id, default "" (line2text !! line_id))
               (range (start_index s) (end_index s)) in
         {| seg_title := title s;
            seg_content := join NL contents;
            seg_start := start_index s;
            seg_end := end_index s |})
      (sections structured_doc).

(** One iteration of the loop of [doc_with_lines]. *)
Definition number_step (acc : string * gmap Z string) (entry : nat * string)
    : string * gmap Z string :=
  let '(document_with_line_numbers, line2text) := acc in
  let '(i, line) := entry in
  (document_with_line_numbers +:+ "[" +:+ str_of_nat i +:+ "] " +:+ line +:+ NL,
   <[Z.of_nat i := line]> line2text).

(** The text of line [i] of a document, empty when there is no such
    line. *)
Definition line_or_empty (lines : list string) (i : Z) : string :=
  if decide (0 ≤ i)%Z then default "" (lines !! Z.to_nat i) else "".

End Segmentation.

(** ** 12_extracting_tables: markdown tables as data frames *)

Module Tables.
Import Py.

(** A cell of a parsed frame: text, a missing value (NaN), or a number.
    The converter strips the text of cells, so text is [unicode] here. *)
Inductive cell : Type :=
| Text (s : unicode)
| NaN
| Number (z : Z).

Record column : Type := mkColumn {
  col_name : unicode;
  col_cells : list cell;
}.

(** The part of a [DataFrame] the converter touches: the index column and
    the data columns, each holding one cell per row. *)
Record DataFrame : Type := mkDataFrame {
  index_name : unicode;
  index_cells : list cell;
  columns : list column;
}.

(** The values [md_to_df] can be given. *)
Inductive input : Type :=
| InStr (s : unicode)
| InNone
| InInt (z : Z)
| InFrame (df : DataFrame).

Definition is_nan (c : cell) : bool :=
  match c with NaN => true | Text _ | Number _ => false end.

(** [df.dropna(axis=1, how="all")]: columns whose cells are all missing
    are dropped; the index is kept. *)
Definition dropna_columns_all (df : DataFrame) : DataFrame :=
  {| index_name := index_name df;
     index_cells := index_cells df;
     columns := filter (λ col, forallb is_nan (col_cells col) = false) (columns df) |}.

(** [df.iloc[1:]]: every row but the first. *)
Definition iloc_from_1 (df : DataFrame) : DataFrame :=
  {| index_name := index_name df;
     index_cells := drop 1 (index_cells df);
     columns := map (λ col, {| col_name := col_name col;
                                col_cells := drop 1 (col_cells col) |}) (columns df) |}.

(** [str.strip()] with no argument removes leading and trailing
    whitespace, the characters for which [isspace] holds. *)
Fixpoint lstrip (s : unicode) : unicode :=
  match s with
  | c :: rest => if isspace c then lstrip rest else s
  | [] => []
  end.
Fixpoint rstrip (s : unicode) : unicode :=
  match s with
  | c :: rest =>
      match rstrip rest with
      | [] => if isspace c then [] else [c]
      | kept => c :: kept
      end
  | [] => []
  end.
Definition strip (s : unicode) : unicode := rstrip (lstrip s).

(** [lambda x: x.strip()] on a cell: only text has the method. *)
Definition strip_cell (c : cell) : result cell :=
  match c with
  | Text s => Ok (Text (strip s))
  | NaN => Raise (AttributeError "'float' object has no attribute 'strip'")
  | Number _ => Raise (AttributeError "'int' object has no attribute 'strip'")
  end.

(** [df.map(f)]: [f] on every data cell; the index is not mapped. *)
Definition map_cells (f : cell → result cell) (df : DataFrame) : result DataFrame :=
  cols ← mapM (λ col, cells ← mapM f (col_cells col);
                      mret {| col_name := col_name col; col_cells := cells |})
              (columns df);
  mret {| index_name := index_name df; index_cells := index_cells df; columns := cols |}.

Section Pandas.
(** [pd.read_csv(StringIO(data), sep=sep, index_col=index_col)]: the
    parser of the data-frame library; it raises on text it cannot
    parse. *)
Variable read_csv : unicode → unicode → nat → result DataFrame.

Definition md_to_df (data : input) : result input :=
  match data with
  | InStr s =>
      df ← read_csv s "|" 1;
      df ← map_cells strip_cell (iloc_from_1 (dropna_columns_all df));
      mret (InFrame df)
  | InNone | InInt _ | InFrame _ => Ok data
  end.
End Pandas.

(** The whitespace code points, listed: what the statements about
    [strip] mean by whitespace. *)
Definition whitespace : list codepoint :=
  [9; 10; 11; 12; 13; 28; 29; 30; 31; 32; 133; 160; 5760;
   8192; 8193; 8194; 8195; 8196; 8197; 8198; 8199; 8200; 8201; 8202;
   8232; 8233; 8239; 8287; 12288]%N.

(** Text that is whitespace only, and text with no whitespace at either
    end. *)
Definition all_space (s : unicode) : Prop := ∀ c, c ∈ s → c ∈ whitespace.

Definition trimmed (s : unicode) : Prop :=
  (∀ c, head s = Some c → c ∉ whitespace) ∧
  (∀ c, last s = Some c → c ∉ whitespace).

(** The last character of a [string]. *)
Fixpoint last_char (s : string) : option ascii :=
  match s with
  | EmptyString => None
  | String c EmptyString => Some c
  | String _ rest => last_char rest
  end.

(** [col'] holds the cells of [col], all text, each one stripped. *)
Definition stripped_column (col col' : column) : Prop :=
  col_name col' = col_name col ∧
  Forall2 (λ c c', ∃ t, c = Text t ∧ c' = Text (strip t)) (col_cells col) (col_cells col').

(** The frame the converter builds from a parsed frame. *)
Definition convert (df : DataFrame) : result DataFrame :=
  map_cells strip_cell (iloc_from_1 (dropna_columns_all df)).




End Tables.

(** ** 07_planning_tasks: query plans *)

Module Planning.
Import Py.

Inductive QueryType : Type := SINGLE_QUESTION | MERGE_MULTIPLE_RESPONSES.

Record Query : Type := mkQuery {
  id : Z;
  question : string;
  dependencies : list Z;
  node_type : QueryType;
}.

Record QueryPlan : Type := mkQueryPlan {
  query_graph : list Query;
}.

(** [QueryPlan._dependencies]: the comprehension
    [[q for q in self.query_graph if q.id in ids]]. *)
Definition _dependencies (self : QueryPlan) (ids : list Z) : list Query :=
  filter (λ q, id q ∈ ids) (query_graph self).

End Planning.

(** ** Vision notebook: products and their prompt *)

Module Vision.
Import Py.

Record Product : Type := mkProduct {
  name : string;
  key_features : option (list string);
  description : option string;
}.

(** [Product.generate_prompt]: [if self.description:] and
    [if self.key_features:] are false on [None] and on the empty value. *)
Definition generate_prompt (self : Product) : string :=
  let prompt := "Product: " +:+ name self +:+ NL in
  let prompt :=
    match description self with
    | None | Some EmptyString => prompt
    | Some d => prompt +:+ "Description: " +:+ d +:+ NL
    end in
  let prompt :=
    match key_features self with
    | None | Some [] => prompt
    | Some features => prompt +:+ "Key Features: " +:+ join ", " features +:+ NL
    end in
  prompt.

End Vision.

(** ** 06_knowledge_graph: drawing and iterative building *)

Module KnowledgeGraphBuild.
Import Py KnowledgeGraph.

(** The statements [draw] sends to graphviz: a node with its label and
    colour, an edge with its label and colour. *)
Inductive attr_stmt : Type :=
| NodeAttr (name label color : string)
| EdgeAttr (tail_name head_name label color : string).

Definition node_stmt (node : Node) : attr_stmt :=
  NodeAttr (str_of_int (KnowledgeGraph.id node)) (KnowledgeGraph.label node)
           (KnowledgeGraph.color node).

Definition edge_stmt (edge : Edge) : attr_stmt :=
  EdgeAttr (str_of_int (source edge)) (str_of_int (target edge))
           (edge_label edge) (edge_color edge).

(** [dot.node(...)] and [dot.edge(...)] with attributes: one more
    statement at the end of the body. *)
Definition add_stmt (s : attr_stmt) : State (list attr_stmt) unit :=
  λ body, ((), body ++ [s]).

(** [KnowledgeGraph.draw], up to the call of [dot.render]. *)
Definition draw (self : KnowledgeGraph) : list attr_stmt :=
  exec
    (sbind
       (for_each (nodes self) (λ node, add_stmt (node_stmt node)))
       (λ _, for_each (edges self) (λ edge, add_stmt (edge_stmt edge))))
    [].

Section Builder.
Variable list_of_set : ∀ A : Type, EqDecision A → list A → list A.
(** The hosted model: for part [i] of [num_iterations], the text of the
    part and the current state of the graph (which the prompt carries), the
    graph of updates it returns. *)
Variable completion : nat → nat → string → KnowledgeGraph → KnowledgeGraph.

(** The body of the loop of [generate_graph]. *)
Definition generate_graph_step (num_iterations : nat)
    (cur_state : KnowledgeGraph) (entry : nat * string) : KnowledgeGraph :=
  let '(i, inp) := entry in
  let new_updates := completion i num_iterations inp cur_state in
  update list_of_set cur_state new_updates.

(** [generate_graph(input: List[str])], the iterative builder. *)
Definition generate_graph (input : list string) : KnowledgeGraph :=
  let cur_state := {| nodes := []; edges := [] |} in
  let num_iterations := length input in
  foldl (generate_graph_step num_iterations) cur_state (enumerate input).
End Builder.

End KnowledgeGraphBuild.

(** ** 12_extracting_tables: the annotated frame type *)

Module TableType.
Import Py Tables.

Record Table : Type := mkTable {
  caption : string;
  dataframe : DataFrame;
}.

Section Pandas.
Variable read_csv : unicode → unicode → nat → result DataFrame.

(** Validation of a [MarkdownDataFrame] value: the before-validator
    [md_to_df] runs first, then the value must be an instance of
    [DataFrame]. *)
Definition MarkdownDataFrame_validate (data : input) : result DataFrame :=
  v ← md_to_df read_csv data;
  match v with
  | InFrame df => Ok df
  | InStr _ | InNone | InInt _ =>
      Raise (ValidationError "Input should be an instance of DataFrame")
  end.

(** [Table(caption=..., dataframe=...)] *)
Definition Table_new (caption : string) (data : input) : result Table :=
  df ← MarkdownDataFrame_validate data;
  mret {| caption := caption; dataframe := df |}.
End Pandas.

End TableType.

(** ** Further vocabulary *)

Module Vocabulary.
Import Py.

(** [c in s] for a character. *)
Fixpoint has_char (c : ascii) (s : string) : bool :=
  match s with
  | EmptyString => false
  | String c' rest => bool_decide (c' = c) || has_char c rest
  end.

(** The sections follow one another from line [from] to line [to]: each
    starts where the previous one ended and holds at least one line. *)
Fixpoint covers (from : Z) (secs : list Segmentation.DocSection) (to : Z) : Prop :=
  match secs with
  | [] => from = to
  | s :: rest =>
      Segmentation.start_index s = from ∧ (from < Segmentation.end_index s)%Z ∧
      covers (Segmentation.end_index s) rest to
  end.

(** The numbered form of line [i]. *)
Definition numbered_line (i : nat) (line : string) : string :=
  "[" +:+ str_of_nat i +:+ "] " +:+ line.

End Vocabulary.

(** * Properties of the embedded code *)

(** ** Strings: append, prefix, occurrences, literal search, replacement *)

Module TextFacts.
Import Py.

Lemma app_String c s t : String c s +:+ t = String c (s +:+ t).
Proof. reflexivity. Qed.

Lemma app_empty_l s : "" +:+ s = s.
Proof. reflexivity. Qed.

Lemma app_empty_r s : s +:+ "" = s.
Proof. induction s as [|c s IH]; [done|]. by rewrite app_String, IH. Qed.

Lemma length_app_s s t : String.length (s +:+ t) = String.length s + String.length t.
Proof. induction s as [|c s IH]; [done|]. rewrite app_String. simpl. by rewrite IH. Qed.

Lemma prefix_app q r : String.prefix q (q +:+ r) = true.
Proof.
  induction q as [|c q IH]; [by destruct r|].
  rewrite app_String. simpl. by destruct (ascii_dec c c).
Qed.

Lemma prefix_inv q s : String.prefix q s = true → ∃ r, s = q +:+ r.
Proof.
  revert s. induction q as [|c q IH]; intros s H.
  - by exists s.
  - destruct s as [|c' s]; [done|]. simpl in H.
    destruct (ascii_dec c c') as [->|]; [|done].
    destruct (IH _ H) as [r ->]. by exists r.
Qed.

Lemma prefix_spec q s : String.prefix q s = true ↔ ∃ r, s = q +:+ r.
Proof. split; [apply prefix_inv|]. intros [r ->]. apply prefix_app. Qed.

Lemma occurs_at_String q c s i : occurs_at q (String c s) (S i) ↔ occurs_at q s i.
Proof.
  split.
  - intros ([|c' pre] & post & Heq & Hlen); [done|].
    rewrite app_String in Heq. injection Heq as -> ->.
    exists pre, post. split; [done|]. simpl in Hlen. lia.
  - intros (pre & post & -> & <-). by exists (String c pre), post.
Qed.

Lemma occurs_at_0 q s : occurs_at q s 0 ↔ String.prefix q s = true.
Proof.
  rewrite prefix_spec. split.
  - intros ([|c pre] & post & -> & Hlen); [|done]. by exists post.
  - intros [r ->]. by exists "", r.
Qed.

Lemma occurs_at_length q s i : occurs_at q s i → i + String.length q ≤ String.length s.
Proof. intros (pre & post & -> & <-). rewrite !length_app_s. lia. Qed.

Lemma occurs_empty s : occurs "" s.
Proof. exists 0. by exists "", s. Qed.

(** Every reported span is an occurrence at or after the characters still
    to be skipped. *)
Lemma finditer_go_sound q ctx pos skip sp :
  sp ∈ finditer_go q ctx pos skip →
  ∃ i, occurs_at q ctx i ∧ skip ≤ i ∧ sp = (pos + i, pos + i + String.length q).
Proof.
  revert pos skip. induction ctx as [|c ctx IH]; intros pos skip Hin.
  - destruct skip as [|k]; cbn [finditer_go] in Hin; [|by apply elem_of_nil in Hin].
    destruct (String.prefix q "") eqn:Hp; [|by apply elem_of_nil in Hin].
    apply list_elem_of_singleton in Hin as ->.
    exists 0. rewrite occurs_at_0, Nat.add_0_r. done.
  - destruct skip as [|k]; cbn [finditer_go] in Hin.
    + destruct (String.prefix q (String c ctx)) eqn:Hp.
      * apply elem_of_cons in Hin as [->|Hin].
        { exists 0. rewrite occurs_at_0, Nat.add_0_r. done. }
        apply IH in Hin as (i & Hocc & Hle & ->).
        exists (S i). rewrite occurs_at_String. split_and!; [done|lia|f_equal; lia].
      * apply IH in Hin as (i & Hocc & Hle & ->).
        exists (S i). rewrite occurs_at_String. split_and!; [done|lia|f_equal; lia].
    + apply IH in Hin as (i & Hocc & Hle & ->).
      exists (S i). rewrite occurs_at_String. split_and!; [done|lia|f_equal; lia].
Qed.

(** Every occurrence that starts after the skipped characters coincides
    with a reported span or overlaps one. *)
Lemma finditer_go_complete q ctx pos skip i :
  occurs_at q ctx i → skip ≤ i →
  ∃ sp, sp ∈ finditer_go q ctx pos skip ∧ sp.1 ≤ pos + i ∧ (pos + i < sp.2 ∨ pos + i = sp.1).
Proof.
  revert pos skip i. induction ctx as [|c ctx IH]; intros pos skip i Hocc Hle.
  - pose proof (occurs_at_length _ _ _ Hocc) as Hlen. simpl in Hlen.
    assert (i = 0) as -> by lia. assert (skip = 0) as -> by lia.
    apply occurs_at_0 in Hocc. cbn [finditer_go]. rewrite Hocc.
    exists (pos, pos + String.length q). split; [by apply elem_of_cons; left|]. simpl. lia.
  - destruct skip as [|k]; cbn [finditer_go].
    + destruct (String.prefix q (String c ctx)) eqn:Hp.
      * destruct (decide (i = 0 ∨ i < String.length q)) as [Hi|Hi].
        { exists (pos, pos + String.length q).
          split; [by apply elem_of_cons; left|]. simpl. lia. }
        destruct i as [|i]; [lia|]. apply occurs_at_String in Hocc.
        destruct (IH (S pos) (pred (String.length q)) i Hocc) as (sp & Hin & H1 & H2); [lia|].
        exists sp. split; [by apply elem_of_cons; right|]. lia.
      * destruct i as [|i]; [apply occurs_at_0 in Hocc; congruence|].
        apply occurs_at_String in Hocc.
        destruct (IH (S pos) 0 i Hocc) as (sp & Hin & H1 & H2); [lia|].
        exists sp. split; [done|]. lia.
    + destruct i as [|i]; [lia|]. apply occurs_at_String in Hocc.
      destruct (IH (S pos) k i Hocc) as (sp & Hin & H1 & H2); [lia|].
      exists sp. split; [done|]. lia.
Qed.

(** The reported spans come in text order and do not overlap. *)
Lemma finditer_go_sorted q ctx pos skip :
  StronglySorted span_before (finditer_go q ctx pos skip).
Proof.
  revert pos skip. induction ctx as [|c ctx IH]; intros pos skip.
  - destruct skip as [|k]; cbn [finditer_go]; [|constructor].
    destruct (String.prefix q ""); repeat constructor.
  - destruct skip as [|k]; cbn [finditer_go]; [|apply IH].
    destruct (String.prefix q (String c ctx)); [|apply IH].
    constructor; [apply IH|]. apply Forall_forall. intros sp Hin.
    apply finditer_go_sound in Hin as (i & _ & Hle & ->). unfold span_before. simpl. lia.
Qed.

Lemma substring_0_app q post : String.substring 0 (String.length q) (q +:+ post) = q.
Proof.
  induction q as [|c q IH]; [by destruct post|].
  rewrite app_String. cbn [String.length String.substring]. by rewrite IH.
Qed.

Lemma substring_app_skip pre n s :
  String.substring (String.length pre) n (pre +:+ s) = String.substring 0 n s.
Proof.
  induction pre as [|c pre IH]; [done|].
  rewrite app_String. cbn [String.length String.substring]. done.
Qed.

Lemma slice_occurs_at q s i : occurs_at q s i → slice s i (i + String.length q) = q.
Proof.
  intros (pre & post & -> & <-). unfold slice.
  replace (String.length pre + String.length q - String.length pre)
    with (String.length q) by lia.
  by rewrite substring_app_skip, substring_0_app.
Qed.

Lemma finditer_escape_sound q ctx sp :
  sp ∈ finditer_escape q ctx →
  occurs_at q ctx sp.1 ∧ sp.2 = sp.1 + String.length q ∧ slice ctx sp.1 sp.2 = q.
Proof.
  intros (i & Hocc & _ & ->)%finditer_go_sound. simpl.
  split_and!; [done..|]. by apply slice_occurs_at.
Qed.

Lemma finditer_escape_complete q ctx i :
  occurs_at q ctx i →
  ∃ sp, sp ∈ finditer_escape q ctx ∧ sp.1 ≤ i ∧ (i < sp.2 ∨ i = sp.1).
Proof.
  intros Hocc.
  destruct (finditer_go_complete q ctx 0 0 i Hocc) as (sp & ? & ? & ?); [lia|].
  exists sp. split_and!; [done|lia..].
Qed.

Lemma finditer_escape_nil q ctx : finditer_escape q ctx = [] ↔ ¬ occurs q ctx.
Proof.
  split.
  - intros Hnil [i Hocc]. destruct (finditer_escape_complete _ _ _ Hocc) as (sp & Hin & _).
    rewrite Hnil in Hin. by apply elem_of_nil in Hin.
  - intros Hno. destruct (finditer_escape q ctx) as [|sp l] eqn:Heq; [done|].
    destruct Hno. exists sp.1. eapply finditer_escape_sound. rewrite Heq. by left.
Qed.

Lemma slices_of_spans q ctx x :
  x ∈ map (λ sp : nat * nat, slice ctx sp.1 sp.2) (finditer_escape q ctx) ↔
  x = q ∧ occurs q ctx.
Proof.
  rewrite list_elem_of_fmap. split.
  - intros (sp & -> & Hin). destruct (finditer_escape_sound _ _ _ Hin) as (Hocc & _ & Hs).
    split; [done|]. by exists sp.1.
  - intros [-> Hocc]. destruct (finditer_escape q ctx) as [|sp l] eqn:Heq.
    { by apply finditer_escape_nil in Heq. }
    exists sp. split; [|by left]. symmetry. eapply finditer_escape_sound.
    rewrite Heq. by left.
Qed.

Lemma replace_go_skip old new pre s :
  replace_go old new (pre +:+ s) (String.length pre) = replace_go old new s 0.
Proof.
  induction pre as [|c pre IH]; [done|].
  rewrite app_String. cbn [String.length replace_go]. done.
Qed.

Lemma replace_absent s old new : ¬ occurs old s → replace s old new = s.
Proof.
  unfold replace. induction s as [|c s IH]; intros Hno.
  - cbn [replace_go]. destruct (String.prefix old "") eqn:Hp; [|done].
    destruct Hno. exists 0. by apply occurs_at_0.
  - cbn [replace_go]. destruct (String.prefix old (String c s)) eqn:Hp.
    { destruct Hno. exists 0. by apply occurs_at_0. }
    rewrite IH; [done|]. intros [i Hocc]. apply Hno. exists (S i). by apply occurs_at_String.
Qed.

Lemma replace_leftmost pre old post new :
  old ≠ "" →
  (∀ j, occurs_at old (pre +:+ old +:+ post) j → String.length pre ≤ j) →
  replace (pre +:+ old +:+ post) old new = pre +:+ new +:+ replace post old new.
Proof.
  intros Hold. unfold replace. induction pre as [|c pre IH]; intros Hleft.
  - rewrite !app_empty_l. destruct old as [|c old']; [done|].
    rewrite app_String. cbn [replace_go].
    change (String c (old' +:+ post)) with (String c old' +:+ post).
    rewrite prefix_app. f_equal. apply replace_go_skip.
  - rewrite !app_String. cbn [replace_go].
    destruct (String.prefix old (String c (pre +:+ old +:+ post))) eqn:Hp.
    { apply occurs_at_0 in Hp. apply (Hleft 0) in Hp. simpl in Hp. lia. }
    f_equal. apply IH. intros j Hocc.
    assert (String.length (String c pre) ≤ S j); [|simpl in *; lia].
    apply Hleft. rewrite app_String. by apply occurs_at_String.
Qed.

Lemma replace_empty_old s new :
  replace s "" new
  = match s with
    | "" => new
    | String c rest => new +:+ String c (replace rest "" new)
    end.
Proof.
  unfold replace. destruct s as [|c s]; cbn [replace_go String.prefix]; [|done].
  apply app_empty_r.
Qed.

Lemma split_nonempty sep s : split sep s ≠ [].
Proof.
  destruct s as [|c s]; [done|]. cbn [split].
  destruct (decide (c = sep)); [done|]. by destruct (split sep s).
Qed.

Lemma join_cons sep x y ys : join sep (x :: y :: ys) = x +:+ sep +:+ join sep (y :: ys).
Proof. done. Qed.

(** Joining the fields of a split with the separator gives the text
    back. *)
Lemma join_split sep s : join (String sep "") (split sep s) = s.
Proof.
  induction s as [|c s IH]; [done|]. cbn [split].
  pose proof (split_nonempty sep s) as Hne.
  destruct (split sep s) as [|field fields]; [done|].
  destruct (decide (c = sep)) as [->|Hc].
  - by rewrite join_cons, IH.
  - destruct fields as [|field' fields].
    + cbn in IH. cbn. by rewrite IH.
    + rewrite join_cons in IH. rewrite join_cons, app_String. by rewrite IH.
Qed.

Lemma enumerate_snoc {A} (xs : list A) (x : A) :
  enumerate (xs ++ [x]) = enumerate xs ++ [(length xs, x)].
Proof. unfold enumerate. rewrite imap_app. simpl. by rewrite Nat.add_0_r. Qed.

Lemma foldl_pointwise {A B} (f g : A → B → A) (l : list B) (a : A) :
  (∀ a b, f a b = g a b) → foldl f a l = foldl g a l.
Proof.
  intros Hfg. revert a. induction l as [|b l IH]; intros a; [done|].
  cbn. by rewrite Hfg, IH.
Qed.
End TextFacts.

(** ** Exceptions and state *)

Module EffectFacts.
Import Py.

Lemma mapM_Ok {A B} (f : A → result B) (g : A → B) (l : list A) :
  (∀ x, x ∈ l → f x = Ok (g x)) → mapM f l = Ok (map g l).
Proof.
  induction l as [|x l IH]; intros Hf; [done|].
  cbn [mapM map]. rewrite Hf by (by apply elem_of_cons; left).
  rewrite IH by (intros; apply Hf; by apply elem_of_cons; right). done.
Qed.

Lemma mapM_Ok_inv {A B} (f : A → result B) (l : list A) (k : list B) :
  mapM f l = Ok k → Forall2 (λ x y, f x = Ok y) l k.
Proof.
  revert k. induction l as [|x l IH]; intros k; cbn [mapM].
  - intros [= <-]. constructor.
  - destruct (f x) as [y|e] eqn:Hx; [|done]. cbn [mbind result_bind].
    destruct (mapM f l) as [k'|e]; [|done]. cbn. intros [= <-].
    constructor; [done|]. by apply IH.
Qed.

Lemma mapM_fails {A B} (f : A → result B) (l : list A) :
  fails (mapM f l) ↔ ∃ x, x ∈ l ∧ fails (f x).
Proof.
  induction l as [|x l IH]; cbn [mapM].
  - split; [intros [e ?]; done|]. intros (x & Hin & _). by apply elem_of_nil in Hin.
  - destruct (f x) as [b|e] eqn:Hfx; cbn [mbind result_bind].
    + destruct (mapM f l) as [bs|e] eqn:Hl; cbn [mbind result_bind].
      * split; [intros [e ?]; done|]. intros (y & Hin & Hy).
        apply elem_of_cons in Hin as [->|Hin].
        { rewrite Hfx in Hy. by destruct Hy. }
        assert (fails (Ok bs : result (list B))) as [? ?]; [|done].
        apply IH. eauto.
      * split; [|by eexists]. intros _.
        destruct (proj1 IH) as (y & Hin & Hy); [by eexists|].
        exists y. split; [by apply elem_of_cons; right|done].
    + split; [|by eexists]. intros _. exists x. split; [by left|].
      rewrite Hfx. by eexists.
Qed.

Lemma fails_bind_ret {A B} (m : result A) (h : A → B) :
  fails (x ← m; mret (h x)) ↔ fails m.
Proof.
  destruct m as [a|e]; cbn [mbind result_bind].
  - split; intros [e ?]; done.
  - split; intros _; by eexists.
Qed.

Lemma exec_sbind {St A B} (m : State St A) (k : A → State St B) s :
  exec (sbind m k) s = exec (k (m s).1) (exec m s).
Proof. unfold exec, sbind. by destruct (m s). Qed.

Lemma appends_sret {St A} (a : A) : appends (St:=St) (sret a) [].
Proof. intros s. unfold exec, sret. simpl. by rewrite app_nil_r. Qed.

Lemma appends_sbind {St A B} (m : State (list St) A) (k : A → State (list St) B) out1 out2 :
  appends m out1 → (∀ a, appends (k a) out2) → appends (sbind m k) (out1 ++ out2).
Proof. intros Hm Hk s. by rewrite exec_sbind, Hk, Hm, app_assoc. Qed.

Lemma appends_for_each {St A} (xs : list A) (body : A → State (list St) unit) f :
  (∀ x, appends (body x) (f x)) → appends (for_each xs body) (flat_map f xs).
Proof.
  intros Hbody. induction xs as [|x xs IH]; cbn [for_each flat_map].
  - apply appends_sret.
  - apply appends_sbind; [apply Hbody|]. intros _. apply IH.
Qed.

Lemma flat_map_singleton {A B} (f : A → B) (xs : list A) :
  flat_map (λ x, [f x]) xs = map f xs.
Proof. induction xs as [|x xs IH]; [done|]. simpl. by rewrite IH. Qed.

End EffectFacts.

(** ** 04_exact_citations *)

Module CitationFacts.
Import Py TextFacts EffectFacts ExactCitations.

Lemma elem_of_cited context quotes x :
  x ∈ cited context quotes ↔ x ∈ quotes ∧ occurs x context.
Proof.
  unfold cited. induction quotes as [|q quotes IH]; simpl.
  - rewrite !elem_of_nil. tauto.
  - rewrite fmap_app, elem_of_app, IH, slices_of_spans, elem_of_cons. split.
    + intros [[-> Hocc]|[Hin Hocc]]; auto.
    + intros [[->|Hin] Hocc]; auto.
Qed.

(** With a context string the validator cannot raise, and it stores the
    cited substrings. *)
Lemma Fact_validate_sources_str (self : Fact) (d : gmap string val) (context : string) :
  d !! "text_chunk" = Some (PyStr context) →
  Fact_validate_sources self (Some d)
  = Ok {| fact := fact self; substring_quote := cited context (substring_quote self) |}.
Proof.
  intros Hd. unfold Fact_validate_sources, get_spans. cbn [mbind result_bind].
  rewrite Hd. cbn [default].
  rewrite (mapM_Ok _ (λ quote, finditer_escape quote context)) by done.
  cbn [mbind result_bind mret result_ret].
  rewrite (mapM_Ok _ (λ sp : nat * nat, slice context sp.1 sp.2)) by done.
  done.
Qed.

Lemma Fact_without_context (self : Fact) :
  Fact_model_validate self None
  = Raise (AttributeError "'NoneType' object has no attribute 'get'").
Proof. done. Qed.

(** With a dictionary that holds no string under "text_chunk" the search
    raises at the first claimed quote, and is never run when there is
    none. *)
Lemma Fact_without_text_chunk (self : Fact) (d : gmap string val) :
  (∀ context, d !! "text_chunk" ≠ Some (PyStr context)) →
  Fact_model_validate self (Some d)
  = match substring_quote self with
    | [] => Ok {| fact := fact self; substring_quote := [] |}
    | _ :: _ => Raise (TypeError "expected string or bytes-like object")
    end.
Proof.
  intros Hd. unfold Fact_model_validate, Fact_validate_sources, get_spans.
  cbn [mbind result_bind].
  destruct (substring_quote self) as [|q quotes]; [done|].
  cbn [mapM]. destruct (d !! "text_chunk") as [[|context|z]|]; cbn; try done.
  by destruct (Hd context).
Qed.

Lemma Fact_with_text_chunk (self : Fact) (info : ValidationInfo) :
  supplies_text_chunk info → succeeds (Fact_model_validate self info).
Proof.
  intros (d & context & -> & Hd). unfold Fact_model_validate.
  rewrite (Fact_validate_sources_str _ _ _ Hd). by eexists.
Qed.

(** C1.  When a [QuestionAnswer] is validated with a context dictionary
    holding the context string under "text_chunk": every [Fact] validates
    to the same fact text with its quote list replaced by [cited], the
    context substrings at the spans the literal search reports for the
    claimed quotes; a string is among them exactly when it is a claimed
    quote that occurs literally in the context; every reported span is an
    occurrence of the quote and its slice is the quote itself, the spans of
    a quote come in text order without overlap, and every occurrence
    coincides with or overlaps a reported span; the answer
    keeps exactly the validated facts with a non-empty quote list, so
    every retained fact has at least one quote and all its quotes occur
    in the context. *)
Theorem validated_citations (d : gmap string val) (context : string) (data : QuestionAnswer) :
  d !! "text_chunk" = Some (PyStr context) →
  let verified := map (λ f, {| fact := fact f;
                               substring_quote := cited context (substring_quote f) |})
                      (answer data) in
  Forall2 (λ f f', Fact_model_validate f (Some d) = Ok f') (answer data) verified ∧
  QuestionAnswer_model_validate data (Some d)
  = Ok {| question := question data;
          answer := filter (λ f, 0 < length (substring_quote f)) verified |} ∧
  (∀ quotes q, q ∈ cited context quotes ↔ q ∈ quotes ∧ occurs q context) ∧
  (∀ q sp, sp ∈ finditer_escape q context →
     occurs_at q context sp.1 ∧ sp.2 = sp.1 + String.length q ∧
     slice context sp.1 sp.2 = q) ∧
  (∀ q, StronglySorted span_before (finditer_escape q context)) ∧
  (∀ q i, occurs_at q context i →
     ∃ sp, sp ∈ finditer_escape q context ∧ sp.1 ≤ i ∧ (i < sp.2 ∨ i = sp.1)) ∧
  (∀ qa, QuestionAnswer_model_validate data (Some d) = Ok qa →
     ∀ f, f ∈ answer qa →
       substring_quote f ≠ [] ∧ ∀ q, q ∈ substring_quote f → occurs q context).
Proof.
  intros Hd verified.
  assert (Hfacts : ∀ f, Fact_model_validate f (Some d)
            = Ok {| fact := fact f; substring_quote := cited context (substring_quote f) |}).
  { intros f. by apply Fact_validate_sources_str. }
  assert (Hqa : QuestionAnswer_model_validate data (Some d)
            = Ok {| question := question data;
                    answer := filter (λ f, 0 < length (substring_quote f)) verified |}).
  { unfold QuestionAnswer_model_validate.
    rewrite (mapM_Ok _ (λ f, {| fact := fact f;
                                substring_quote := cited context (substring_quote f) |}))
      by (intros; apply Hfacts).
    done. }
  split_and!.
  - unfold verified. apply Forall2_fmap_r, Forall_Forall2_diag, Forall_forall.
    intros f _. apply Hfacts.
  - done.
  - intros. apply elem_of_cited.
  - intros q sp. apply finditer_escape_sound.
  - intros q. apply finditer_go_sorted.
  - intros q i. apply finditer_escape_complete.
  - intros qa Hok f Hin. rewrite Hqa in Hok. injection Hok as <-. cbn [answer] in Hin.
    apply list_elem_of_filter in Hin as [Hlen Hin].
    split; [intros Hnil; rewrite Hnil in Hlen; simpl in Hlen; lia|].
    unfold verified in Hin. apply list_elem_of_fmap in Hin as (f0 & -> & _).
    cbn [substring_quote]. intros q Hq. by apply elem_of_cited in Hq as [_ ?].
Qed.

Lemma validated_citations_witness :
  let context := "I studied physics." in
  let d : gmap string val := {[ "text_chunk" := PyStr context ]} in
  let data := {| question := "What did the author study?";
                 answer := [ {| fact := "The author studied physics";
                                substring_quote := ["studied physics"] |};
                             {| fact := "The author studied law";
                                substring_quote := ["studied law"] |} ] |} in
  d !! "text_chunk" = Some (PyStr context) ∧
  QuestionAnswer_model_validate data (Some d)
  = Ok {| question := "What did the author study?";
          answer := [ {| fact := "The author studied physics";
                         substring_quote := ["studied physics"] |} ] |}.
Proof.
  intros context d data.
  assert (Hd : d !! "text_chunk" = Some (PyStr context)) by apply lookup_singleton_eq.
  split; [exact Hd|].
  rewrite (proj1 (proj2 (validated_citations d context data Hd))).
  vm_compute. reflexivity.
Defined.

(** C9, as the code has it.  Without a context string under
    "text_chunk", validating a [Fact] fails exactly when there is no
    context at all or the fact claims at least one quote; when it
    succeeds the fact is kept with an empty quote list; a
    [QuestionAnswer] fails exactly when one of its facts does; with a
    context string a [Fact] always validates, and [ask_ai] supplies
    one. *)
Theorem validation_without_context_string (info : ValidationInfo) (data : Fact) :
  ¬ supplies_text_chunk info →
  (fails (Fact_model_validate data info) ↔ info = None ∨ substring_quote data ≠ []) ∧
  (∀ f, Fact_model_validate data info = Ok f →
     f = {| fact := fact data; substring_quote := [] |}) ∧
  (∀ qa : QuestionAnswer,
     fails (QuestionAnswer_model_validate qa info) ↔
     ∃ f, f ∈ answer qa ∧ (info = None ∨ substring_quote f ≠ [])) ∧
  (∀ info', supplies_text_chunk info' → succeeds (Fact_model_validate data info')) ∧
  (∀ context, supplies_text_chunk (ask_ai_validation_context context)).
Proof.
  intros Hno.
  assert (Hfact : ∀ f, fails (Fact_model_validate f info)
                       ↔ info = None ∨ substring_quote f ≠ []).
  { intros f. destruct info as [d|].
    - rewrite Fact_without_text_chunk by (intros context Hd; apply Hno; by exists d, context).
      destruct (substring_quote f) as [|q quotes].
      + split; [intros [e ?]; done|]. intros [?|?]; done.
      + split; [by right|]. intros _. by eexists.
    - rewrite Fact_without_context. split; [by left|]. intros _. by eexists. }
  split_and!.
  - apply Hfact.
  - intros f Hok. destruct info as [d|]; [|by rewrite Fact_without_context in Hok].
    rewrite Fact_without_text_chunk in Hok
      by (intros context Hd; apply Hno; by exists d, context).
    destruct (substring_quote data); [|done]. by injection Hok as <-.
  - intros qa. unfold QuestionAnswer_model_validate.
    transitivity (fails (mapM (λ f, Fact_model_validate f info) (answer qa))).
    + destruct (mapM _ (answer qa)) as [facts|e]; cbn [mbind result_bind].
      * split; intros [e ?]; done.
      * split; intros _; by eexists.
    + rewrite mapM_fails. by setoid_rewrite Hfact.
  - intros info'. apply Fact_with_text_chunk.
  - intros context. exists {[ "text_chunk" := PyStr context ]}, context.
    split; [done|]. apply lookup_singleton_eq.
Qed.

Lemma validation_without_context_string_witness :
  let data := {| fact := "The sky is blue"; substring_quote := ["blue"] |} in
  ¬ supplies_text_chunk None ∧
  (fails (Fact_model_validate data None)
   ↔ None = (None : ValidationInfo) ∨ substring_quote data ≠ []).
Proof.
  intros data.
  assert (H : ¬ supplies_text_chunk None) by (intros (d & context & Heq & _); discriminate).
  split; [exact H|].
  exact (proj1 (validation_without_context_string None data H)).
Defined.

(** A [Fact] that claims no quote validates under a context dictionary
    without "text_chunk": the search of the missing text is never
    reached. *)
Lemma fact_without_quotes_validates :
  let info : ValidationInfo := Some ∅ in
  let data := {| fact := "The sky is blue"; substring_quote := [] |} in
  ¬ supplies_text_chunk info ∧
  Fact_model_validate data info = Ok data ∧
  ¬ fails (Fact_model_validate data info).
Proof.
  split_and!.
  - intros (d & context & [= <-] & Hd). by rewrite lookup_empty in Hd.
  - reflexivity.
  - intros [e He]. discriminate He.
Qed.
End CitationFacts.

(** ** 09_pii *)

Module ScrubFacts.
Import Py TextFacts PII.

Lemma scrub_upto_app n entries more document :
  n ≤ length entries →
  scrub_upto n (entries ++ more) document = scrub_upto n entries document.
Proof.
  induction n as [|i IH]; intros Hn; [done|].
  cbn [scrub_upto]. rewrite IH by lia. by rewrite lookup_app_l by lia.
Qed.

(** The loop over [enumerate] computes the procedure of the
    specification. *)
Lemma scrub_data_spec (self : PIIDataExtraction) (content : string) :
  scrub_data self content = scrub_spec (map entry_of (private_data self)) content.
Proof.
  unfold scrub_data, scrub_spec. destruct self as [datas]. cbn [private_data].
  induction datas as [|data datas IH] using rev_ind; [done|].
  rewrite enumerate_snoc, foldl_app, IH. cbn [foldl].
  rewrite map_app, length_app, !length_map. cbn [map length].
  rewrite Nat.add_1_r. cbn [scrub_upto].
  rewrite scrub_upto_app by (by rewrite length_map).
  rewrite lookup_app_r by (by rewrite length_map).
  rewrite length_map, Nat.sub_diag. done.
Qed.

(** C2.  [scrub_data] returns the result of the sequential procedure
    [scrub_spec]: for [i = 0, 1, ...] in list order, the occurrences of
    the [i]-th value in the running document are replaced by the
    placeholder built from the [i]-th type and the position [i].  The
    procedure reads types and values only, so extractions that differ in
    their [index] fields alone scrub identically.  Replacement is by
    literal containment: a document in which the value does not occur is
    unchanged, and otherwise the text up to the leftmost occurrence is
    kept, the occurrence becomes the placeholder, and replacement
    continues after it. *)
Theorem scrub_data_sequential_literal (self : PIIDataExtraction) (document : string) :
  scrub_data self document = scrub_spec (map entry_of (private_data self)) document ∧
  (∀ other : PIIDataExtraction,
     map entry_of (private_data other) = map entry_of (private_data self) →
     scrub_data other document = scrub_data self document) ∧
  (∀ s old new, ¬ occurs old s → replace s old new = s) ∧
  (∀ pre old post new, old ≠ "" →
     (∀ j, occurs_at old (pre +:+ old +:+ post) j → String.length pre ≤ j) →
     replace (pre +:+ old +:+ post) old new = pre +:+ new +:+ replace post old new).
Proof.
  split_and!.
  - apply scrub_data_spec.
  - intros other Heq. by rewrite !scrub_data_spec, Heq.
  - apply replace_absent.
  - apply replace_leftmost.
Qed.

(** The notebook's shape of input: a value occurring twice, a second
    entry, and [index] fields that play no role. *)
Example scrub_data_example :
  scrub_data {| private_data := [ mkData 7 "name" "John"; mkData 7 "phone" "555" ] |}
             "John called 555; John left."
  = "<name_0> called <phone_1>; <name_0> left.".
Proof. vm_compute. reflexivity. Qed.
End ScrubFacts.

(** ** Dependency graphs: 08_entity_resolution and the action items *)

Module RenderFacts.
Import Py EffectFacts Graphviz.

Lemma appends_node name label : appends (node name label) [NodeStmt name label].
Proof. done. Qed.

Lemma appends_edge t h : appends (edge t h) [EdgeStmt t h].
Proof. done. Qed.

Lemma appends_new {A} (m : State Digraph A) out : appends m out → exec m new_Digraph = out.
Proof. intros Hm. by rewrite Hm. Qed.

Lemma appends_if_truthy {St A} (xs : option (list A))
    (body : list A → State (list St) unit) f :
  (∀ l, appends (body l) (flat_map f l)) →
  appends (ActionItems.if_truthy xs body) (flat_map f (default [] xs)).
Proof.
  intros Hbody. destruct xs as [[|x l]|]; cbn [ActionItems.if_truthy default].
  - apply appends_sret.
  - apply Hbody.
  - apply appends_sret.
Qed.

Lemma edges_app (d1 d2 : Digraph) : edges (d1 ++ d2) = edges d1 ++ edges d2.
Proof. apply omap_app. Qed.
Lemma node_names_app (d1 d2 : Digraph) :
  node_names (d1 ++ d2) = node_names d1 ++ node_names d2.
Proof. apply omap_app. Qed.

Lemma edges_flat_map {A} (f : A → list stmt) (xs : list A) :
  edges (flat_map f xs) = flat_map (λ x, edges (f x)) xs.
Proof. induction xs as [|x xs IH]; [done|]. simpl. by rewrite edges_app, IH. Qed.
Lemma node_names_flat_map {A} (f : A → list stmt) (xs : list A) :
  node_names (flat_map f xs) = flat_map (λ x, node_names (f x)) xs.
Proof. induction xs as [|x xs IH]; [done|]. simpl. by rewrite node_names_app, IH. Qed.

Lemma edges_EdgeStmts {A} (t h : A → string) (xs : list A) :
  edges (map (λ x, EdgeStmt (t x) (h x)) xs) = map (λ x, (t x, h x)) xs.
Proof. induction xs as [|x xs IH]; [done|]. cbn. by f_equal. Qed.
Lemma node_names_EdgeStmts {A} (t h : A → string) (xs : list A) :
  node_names (map (λ x, EdgeStmt (t x) (h x)) xs) = [].
Proof. induction xs as [|x xs IH]; [done|]. by cbn. Qed.
Lemma edges_NodeStmts {A} (n l : A → string) (xs : list A) :
  edges (map (λ x, NodeStmt (n x) (l x)) xs) = [].
Proof. induction xs as [|x xs IH]; [done|]. by cbn. Qed.
Lemma node_names_NodeStmts {A} (n l : A → string) (xs : list A) :
  node_names (map (λ x, NodeStmt (n x) (l x)) xs) = map n xs.
Proof. induction xs as [|x xs IH]; [done|]. cbn. by f_equal. Qed.

Lemma flat_map_nil {A B} (xs : list A) : flat_map (λ _, @nil B) xs = [].
Proof. by induction xs. Qed.

(** The body the entity renderer hands to graphviz: the nodes of the
    first loop, then the edges of the second. *)
Lemma generate_graph_body (data : EntityResolution.DocumentExtraction) :
  EntityResolution.generate_graph data
  = map EntityResolution.entity_node (EntityResolution.entities data)
    ++ flat_map EntityResolution.dependency_edges (EntityResolution.entities data).
Proof.
  unfold EntityResolution.generate_graph. apply appends_new, appends_sbind.
  - rewrite <-flat_map_singleton. apply appends_for_each. intros e. apply appends_node.
  - intros _. apply appends_for_each. intros e.
    unfold EntityResolution.dependency_edges. rewrite <-flat_map_singleton.
    apply appends_for_each. intros d. apply appends_edge.
Qed.

(** The body the action-items cell hands to graphviz: ticket by ticket,
    its node, its subtasks, its dependency edges. *)
Lemma action_items_graph_body format_priority (prediction : list ActionItems.Ticket) :
  ActionItems.action_items_graph format_priority prediction
  = flat_map (ActionItems.ticket_stmts format_priority) prediction.
Proof.
  unfold ActionItems.action_items_graph. apply appends_new, appends_for_each.
  intros ticket. unfold ActionItems.ticket_stmts.
  apply (appends_sbind _ _ [_]); [apply appends_node|]. intros _.
  apply appends_sbind.
  - apply appends_if_truthy. intros sts. apply appends_for_each. intros st.
    apply (appends_sbind _ _ [_] [_]); [apply appends_node|]. intros _. apply appends_edge.
  - intros _. unfold ActionItems.dependency_edges. rewrite <-flat_map_singleton.
    apply appends_if_truthy. intros deps. apply appends_for_each. intros dep.
    apply appends_edge.
Qed.

(** C3.  The entity renderer declares one node per entity and then, for
    every entity and every id in its [dependencies], the edge from the
    entity to that id; the action-items renderer declares, ticket by
    ticket, the ticket's node, its subtask statements and, for every id in
    [ticket.dependencies], the edge from that id to the ticket.  Nothing
    is checked: an entity or ticket depending on itself and on an id that
    names no node yields a self-loop and a dangling edge. *)
Theorem renderers_add_every_dependency_edge
    (format_priority : ActionItems.PriorityEnum → string)
    (data : EntityResolution.DocumentExtraction) (prediction : list ActionItems.Ticket) :
  EntityResolution.generate_graph data
  = map EntityResolution.entity_node (EntityResolution.entities data)
    ++ flat_map EntityResolution.dependency_edges (EntityResolution.entities data) ∧
  node_names (EntityResolution.generate_graph data)
  = map (λ e, str_of_int (EntityResolution.id e)) (EntityResolution.entities data) ∧
  edges (EntityResolution.generate_graph data)
  = flat_map (λ e, map (λ dep_id, (str_of_int (EntityResolution.id e), str_of_int dep_id))
                       (EntityResolution.dependencies e))
             (EntityResolution.entities data) ∧
  ActionItems.action_items_graph format_priority prediction
  = flat_map (ActionItems.ticket_stmts format_priority) prediction ∧
  (∀ ticket deps dep,
     ticket ∈ prediction → ActionItems.dependencies ticket = Some deps → dep ∈ deps →
     (str_of_int dep, str_of_int (ActionItems.id ticket))
       ∈ edges (ActionItems.action_items_graph format_priority prediction)) ∧
  (let e := EntityResolution.mkEntity 1%Z [] "Client" [] [1%Z; 7%Z] in
   let dot := EntityResolution.generate_graph (EntityResolution.mkDocumentExtraction [e]) in
   node_names dot = ["1"] ∧ edges dot = [("1", "1"); ("1", "7")]) ∧
  (let t := ActionItems.mkTicket 1%Z "Billing" "" ActionItems.high [] None
                                 (Some [1%Z; 7%Z]) in
   let dot := ActionItems.action_items_graph format_priority [t] in
   node_names dot = ["1"] ∧ edges dot = [("1", "1"); ("7", "1")]).
Proof.
  split_and!.
  - apply generate_graph_body.
  - rewrite generate_graph_body, node_names_app.
    unfold EntityResolution.entity_node. rewrite node_names_NodeStmts.
    rewrite node_names_flat_map. unfold EntityResolution.dependency_edges.
    erewrite flat_map_ext; [|intros e; apply node_names_EdgeStmts].
    by rewrite flat_map_nil, app_nil_r.
  - rewrite generate_graph_body, edges_app.
    unfold EntityResolution.entity_node. rewrite edges_NodeStmts, app_nil_l.
    rewrite edges_flat_map. apply flat_map_ext. intros e.
    unfold EntityResolution.dependency_edges.
    apply (edges_EdgeStmts (λ _, str_of_int (EntityResolution.id e)) str_of_int).
  - apply action_items_graph_body.
  - intros ticket deps dep Hin Hdeps Hdep.
    rewrite action_items_graph_body, edges_flat_map.
    apply list_elem_of_In, in_flat_map. exists ticket. split; [by apply list_elem_of_In|].
    apply list_elem_of_In. unfold ActionItems.ticket_stmts.
    change (NodeStmt ?n ?l :: ?rest) with ([NodeStmt n l] ++ rest).
    rewrite !edges_app. apply elem_of_app; right. apply elem_of_app; right.
    unfold ActionItems.dependency_edges. rewrite Hdeps. cbn [default].
    rewrite (edges_EdgeStmts str_of_int (λ _, str_of_int (ActionItems.id ticket))).
    apply list_elem_of_fmap. by exists dep.
  - by vm_compute.
  - cbv zeta. rewrite action_items_graph_body. by vm_compute.
Qed.
End RenderFacts.

(** ** 06_knowledge_graph *)

Module GraphFacts.
Import KnowledgeGraph.

Lemma insertion_order_semantics : set_semantics insertion_order.
Proof.
  intros A dec xs. unfold insertion_order. split.
  - rewrite reverse_Permutation. apply NoDup_remove_dups.
  - intros x. by rewrite elem_of_reverse, elem_of_remove_dups, elem_of_reverse.
Qed.

Lemma reversed_order_semantics : set_semantics reversed_order.
Proof.
  intros A dec xs. unfold reversed_order. split.
  - apply NoDup_remove_dups.
  - intros x. by rewrite elem_of_remove_dups, elem_of_reverse.
Qed.

Section Update.
Variable list_of_set : ∀ A : Type, EqDecision A → list A → list A.
Hypothesis Hset : set_semantics list_of_set.

Lemma elem_of_update_nodes self other n :
  n ∈ nodes (update list_of_set self other) ↔ n ∈ nodes self ∨ n ∈ nodes other.
Proof. cbn [update nodes]. by rewrite (proj2 (Hset _ _ _)), elem_of_app. Qed.

Lemma elem_of_update_edges self other e :
  e ∈ edges (update list_of_set self other) ↔ e ∈ edges self ∨ e ∈ edges other.
Proof. cbn [update edges]. by rewrite (proj2 (Hset _ _ _)), elem_of_app. Qed.

Lemma NoDup_update_nodes self other : NoDup (nodes (update list_of_set self other)).
Proof. apply Hset. Qed.

Lemma NoDup_update_edges self other : NoDup (edges (update list_of_set self other)).
Proof. apply Hset. Qed.
End Update.

(** C5.  Whatever order the hash set iterates in, the nodes of
    [g.update(h)] are, without duplicates, exactly the nodes of [g] or of
    [h] under structural equality, and likewise the edges; so [update] is
    commutative and idempotent up to the order of the lists (the results
    are permutations of each other), and merging a graph with itself
    keeps its node and edge sets.  The order itself is open: two
    admissible iteration orders return different lists. *)
Theorem update_is_set_union
    (list_of_set : ∀ A : Type, EqDecision A → list A → list A)
    (g h : KnowledgeGraph) :
  set_semantics list_of_set →
  let update := update list_of_set in
  (∀ n, n ∈ nodes (update g h) ↔ n ∈ nodes g ∨ n ∈ nodes h) ∧
  (∀ e, e ∈ edges (update g h) ↔ e ∈ edges g ∨ e ∈ edges h) ∧
  NoDup (nodes (update g h)) ∧
  NoDup (edges (update g h)) ∧
  nodes (update g h) ≡ₚ nodes (update h g) ∧
  edges (update g h) ≡ₚ edges (update h g) ∧
  nodes (update (update g h) h) ≡ₚ nodes (update g h) ∧
  edges (update (update g h) h) ≡ₚ edges (update g h) ∧
  (∀ n, n ∈ nodes (update g g) ↔ n ∈ nodes g) ∧
  (∀ e, e ∈ edges (update g g) ↔ e ∈ edges g) ∧
  (let a := mkNode 1 "Jason" "blue" in
   let b := mkNode 2 "Sarah" "red" in
   let ga := mkKnowledgeGraph [a] [] in
   let gb := mkKnowledgeGraph [b] [] in
   set_semantics insertion_order ∧
   set_semantics reversed_order ∧
   nodes (KnowledgeGraph.update insertion_order ga gb) = [a; b] ∧
   nodes (KnowledgeGraph.update reversed_order ga gb) = [b; a]).
Proof.
  intros Hset upd. subst upd.
  pose proof (elem_of_update_nodes _ Hset) as Hn.
  pose proof (elem_of_update_edges _ Hset) as He.
  pose proof (NoDup_update_nodes _ Hset) as Dn.
  pose proof (NoDup_update_edges _ Hset) as De.
  split_and!; try done.
  - apply NoDup_Permutation; [done..|]. intros n. rewrite !Hn. tauto.
  - apply NoDup_Permutation; [done..|]. intros e. rewrite !He. tauto.
  - apply NoDup_Permutation; [done..|]. intros n. rewrite !Hn. tauto.
  - apply NoDup_Permutation; [done..|]. intros e. rewrite !He. tauto.
  - intros n. rewrite Hn. tauto.
  - intros e. rewrite He. tauto.
  - cbv zeta. split_and!.
    + apply insertion_order_semantics.
    + apply reversed_order_semantics.
    + by vm_compute.
    + by vm_compute.
Qed.

Lemma update_is_set_union_witness :
  let a := mkNode 1 "Jason" "blue" in
  let b := mkNode 2 "Sarah" "red" in
  let ab := mkEdge 2 1 "knows" "black" in
  let g := mkKnowledgeGraph [a] [] in
  let h := mkKnowledgeGraph [b; a] [ab; ab] in
  set_semantics insertion_order ∧
  update insertion_order g h = mkKnowledgeGraph [a; b] [ab] ∧
  nodes (update insertion_order g h) ≡ₚ nodes (update insertion_order h g).
Proof.
  intros a b ab g h. split; [exact insertion_order_semantics|].
  split; [vm_compute; reflexivity|].
  exact (proj1 (proj2 (proj2 (proj2 (proj2
           (update_is_set_union insertion_order g h insertion_order_semantics)))))).
Defined.
End GraphFacts.

(** ** 11_moderation *)

Module ModerationFacts.
Import Py Moderation.

(** C6.  Constructing a [Response] raises a validation error exactly when
    the moderation endpoint flags the message; the error text names the
    message and the flagged categories; an unflagged message is stored
    unchanged; and the notebook cell does nothing with a failure but
    print the exception. *)
Theorem response_raises_iff_flagged
    (moderations_create : string → ModerationResult)
    (validation_error_str : string → string → string → string)
    (msg : string) :
  let out := moderations_create msg in
  let new := Response_new moderations_create in
  (fails (new msg) ↔ flagged out = true) ∧
  (flagged out = true → new msg = Raise (ValidationError (flag_message msg out))) ∧
  (flagged out = false → new msg = Ok {| message := msg |}) ∧
  (∀ stdout,
     exec (try_Response_cell moderations_create validation_error_str msg) stdout
     = if flagged out
       then stdout ++ [validation_error_str "Response" "message" (flag_message msg out)]
       else stdout).
Proof.
  intros out new. subst out new.
  unfold try_Response_cell, Response_new, openai_moderation.
  destruct (flagged (moderations_create msg)) eqn:Hflag; cbn [mbind result_bind].
  - split_and!; try done. split; [done|]. intros _. by eexists.
  - split_and!; try done. split; [intros [e ?]; done|done].
Qed.

(** The second message of the notebook, with the categories its output
    shows. *)
Example flagged_message_example :
  let endpoint := λ _ : string,
    {| flagged := true;
       categories := [("harassment", false); ("self_harm", true);
                      ("self_harm_intent", true); ("violence", false)] |} in
  Response_new endpoint "I want to hurt myself."
  = Raise (ValidationError
             "`I want to hurt myself.` was flagged for self_harm, self_harm_intent").
Proof. vm_compute. reflexivity. Qed.
End ModerationFacts.

(** ** Text classification *)

Module ClassificationFacts.
Import Py Classification.

(** C7.  A [SpamPrediction] that was parsed, directly or as the result of
    [classify], has the label "spam" or "not_spam"; so when the inline
    check [prediction.label == "spam"] fails the label is "not_spam". *)
Theorem spam_label_in_vocabulary
    (chat_completion : string → string) (data raw_label : string)
    (prediction : SpamPrediction) :
  SpamPrediction_model_validate raw_label = Ok prediction ∨
  classify chat_completion data = Ok prediction →
  (label prediction = "spam" ∨ label prediction = "not_spam") ∧
  (assert_spam prediction = false → label prediction = "not_spam").
Proof.
  assert (Hvalid : ∀ raw, SpamPrediction_model_validate raw = Ok prediction →
            label prediction = "spam" ∨ label prediction = "not_spam").
  { intros raw. unfold SpamPrediction_model_validate.
    destruct (decide _) as [Hin|]; [|done]. intros [= <-]. cbn.
    unfold SpamPrediction_labels in Hin.
    apply elem_of_cons in Hin as [->|Hin]; [by left|].
    apply list_elem_of_singleton in Hin as ->. by right. }
  intros Hparsed.
  assert (Hlabel : label prediction = "spam" ∨ label prediction = "not_spam").
  { destruct Hparsed as [H|H]; [by eapply Hvalid|]. unfold classify in H.
    by eapply Hvalid. }
  split; [done|]. unfold assert_spam. intros Hassert.
  apply bool_decide_eq_false in Hassert. by destruct Hlabel.
Qed.

Lemma spam_label_in_vocabulary_witness :
  let prediction := {| label := "not_spam" |} in
  (SpamPrediction_model_validate "not_spam" = Ok prediction ∨
   classify (λ _, "not_spam") "Hello there" = Ok prediction) ∧
  (label prediction = "spam" ∨ label prediction = "not_spam").
Proof.
  intros prediction.
  assert (H : SpamPrediction_model_validate "not_spam" = Ok prediction ∨
              classify (λ _, "not_spam") "Hello there" = Ok prediction)
    by (left; reflexivity).
  split; [exact H|].
  exact (proj1 (spam_label_in_vocabulary (λ _, "not_spam") "Hello there" "not_spam"
                  prediction H)).
Defined.

(** A label outside the vocabulary is rejected. *)
Example out_of_vocabulary_rejected : fails (SpamPrediction_model_validate "ham").
Proof. by eexists. Qed.
End ClassificationFacts.

(** ** 17_document_segmentation *)

Module SegmentationFacts.
Import Py TextFacts Segmentation.

Lemma doc_with_lines_fold document :
  doc_with_lines document = foldl number_step ("", ∅) (enumerate (split "010" document)).
Proof. unfold doc_with_lines. apply foldl_pointwise. by intros [??] [??]. Qed.

(** The dictionary maps exactly the positions of the lines to the
    lines. *)
Lemma line2text_lookup (lines : list string) (i : Z) :
  (foldl number_step ("", ∅) (enumerate lines)).2 !! i
  = if decide (0 ≤ i)%Z then lines !! Z.to_nat i else None.
Proof.
  induction lines as [|line lines IH] using rev_ind.
  - cbn. rewrite lookup_empty. by destruct (decide _).
  - rewrite enumerate_snoc, foldl_app. cbn [foldl].
    destruct (foldl number_step ("", ∅) (enumerate lines)) as [numbered line2text].
    cbn [number_step snd] in *.
    destruct (decide (i = Z.of_nat (length lines))) as [->|Hne].
    + rewrite lookup_insert_eq. rewrite decide_True by lia.
      rewrite Nat2Z.id. by rewrite list_lookup_middle.
    + rewrite lookup_insert_ne by done. rewrite IH.
      destruct (decide (0 ≤ i)%Z) as [Hi|]; [|done].
      destruct (decide (Z.to_nat i < length lines)) as [Hlt|Hge].
      * by rewrite lookup_app_l.
      * rewrite !lookup_ge_None_2; [done| |lia]. rewrite length_app. simpl. lia.
Qed.

Lemma get_default_line document (i : Z) :
  default "" ((doc_with_lines document).2 !! i) = line_or_empty (split "010" document) i.
Proof.
  rewrite doc_with_lines_fold, line2text_lookup. unfold line_or_empty.
  by destruct (decide _).
Qed.

Lemma lines_of_full_range (lines : list string) :
  map (line_or_empty lines) (range 0 (Z.of_nat (length lines))) = lines.
Proof.
  unfold range. rewrite Z.sub_0_r. apply list_eq. intros i.
  rewrite list_lookup_fmap.
  destruct (decide (i < length lines)) as [Hlt|Hge].
  - rewrite lookup_seqZ_lt by lia. cbn. unfold line_or_empty.
    rewrite decide_True by lia. rewrite Z.add_0_l, Nat2Z.id.
    destruct (lookup_lt_is_Some_2 lines i Hlt) as [x ->]. done.
  - rewrite lookup_seqZ_ge by lia. cbn. by rewrite lookup_ge_None_2 by lia.
Qed.

(** C8.  With [line2text] the dictionary of [doc_with_lines document]:
    it maps [i] to the [i]-th line of the document and holds no other
    key; [get_sections_text] yields for every section the title, the
    bounds, and as content the lines with indices from [start_index]
    up to but excluding [end_index], joined by newlines, an index with no
    line contributing the empty string; and for the single section from 0
    to the number of lines the content is the document itself. *)
Theorem sections_text_by_line_range (document : string)
    (structured_doc : StructuredDocument) :
  let lines := split "010" document in
  let line2text := (doc_with_lines document).2 in
  (∀ i : Z, line2text !! i = if decide (0 ≤ i)%Z then lines !! Z.to_nat i else None) ∧
  get_sections_text structured_doc line2text
  = map (λ s, {| seg_title := title s;
                 seg_content :=
                   join NL (map (line_or_empty lines) (range (start_index s) (end_index s)));
                 seg_start := start_index s;
                 seg_end := end_index s |})
        (sections structured_doc) ∧
  (∀ a b i : Z, i ∈ range a b ↔ (a ≤ i < b)%Z) ∧
  (∀ a b : Z, length (range a b) = Z.to_nat (b - a)) ∧
  (∀ name,
     get_sections_text
       {| sections := [ {| title := name; start_index := 0;
                           end_index := Z.of_nat (length lines) |} ] |}
       line2text
     = [ {| seg_title := name; seg_content := document; seg_start := 0;
            seg_end := Z.of_nat (length lines) |} ]).
Proof.
  intros lines line2text.
  assert (Hget : ∀ i, default "" (line2text !! i) = line_or_empty lines i)
    by apply get_default_line.
  split_and!.
  - intros i. subst line2text lines. rewrite doc_with_lines_fold. apply line2text_lookup.
  - unfold get_sections_text. apply map_ext. intros s. f_equal. f_equal.
    apply map_ext, Hget.
  - intros a b i. unfold range. rewrite elem_of_seqZ. lia.
  - intros a b. unfold range. apply length_seqZ.
  - intros name. unfold get_sections_text.
    cbn [map sections title start_index end_index].
    f_equal. f_equal. rewrite (map_ext _ _ Hget).
    rewrite lines_of_full_range. apply join_split.
Qed.

(** A section that ends at line 2 stops before it, and one that runs past
    the last line pads with empty lines. *)
Example sections_text_example :
  let document := "a" +:+ NL +:+ "b" +:+ NL +:+ "c" in
  map seg_content
      (get_sections_text
         {| sections := [ mkDocSection "head" 0 2; mkDocSection "tail" 2 5 ] |}
         (doc_with_lines document).2)
  = [ "a" +:+ NL +:+ "b"; "c" +:+ NL +:+ NL ].
Proof. vm_compute. reflexivity. Qed.
End SegmentationFacts.

(** ** 12_extracting_tables *)

Module TableFacts.
Import Py EffectFacts TextFacts Tables.

(** [isspace] holds exactly on the listed whitespace code points. *)
Lemma isspace_whitespace c : isspace c = true ↔ c ∈ whitespace.
Proof.
  split.
  - unfold isspace. rewrite !orb_true_iff, !andb_true_iff, !N.leb_le, !N.eqb_eq.
    intros Hc.
    assert (c ∈ [9; 10; 11; 12; 13]%N ∨ c ∈ [28; 29; 30; 31; 32]%N ∨
            c ∈ [133; 160; 5760]%N ∨
            c ∈ [8192; 8193; 8194; 8195; 8196; 8197; 8198; 8199; 8200; 8201; 8202]%N ∨
            c ∈ [8232; 8233; 8239; 8287; 12288]%N) as Hin.
    { rewrite !elem_of_cons, !elem_of_nil. lia. }
    unfold whitespace.
    destruct Hin as [Hin|[Hin|[Hin|[Hin|Hin]]]];
      repeat (apply elem_of_cons in Hin as [->|Hin]);
      try (by apply elem_of_nil in Hin);
      apply (bool_decide_unpack _); by vm_compute.
  - unfold whitespace. intros Hin.
    repeat (apply elem_of_cons in Hin as [->|Hin]); try reflexivity.
    by apply elem_of_nil in Hin.
Qed.

Lemma isspace_not_whitespace c : isspace c = false ↔ c ∉ whitespace.
Proof. rewrite <-isspace_whitespace. by destruct (isspace c). Qed.

Lemma all_space_nil : all_space [].
Proof. intros c Hc. by apply elem_of_nil in Hc. Qed.

Lemma all_space_cons c s : isspace c = true → all_space s → all_space (c :: s).
Proof.
  intros Hc Hs c' Hc'. apply elem_of_cons in Hc' as [->|Hc'].
  - by apply isspace_whitespace.
  - by apply Hs.
Qed.


Lemma lstrip_spec s :
  ∃ ws, s = ws ++ lstrip s ∧ all_space ws ∧
        ∀ c, head (lstrip s) = Some c → c ∉ whitespace.
Proof.
  induction s as [|c s (ws & Heq & Hws & Hfirst)].
  - exists []. split_and!; [done|apply all_space_nil|done].
  - cbn [lstrip]. destruct (isspace c) eqn:Hc.
    + exists (c :: ws). cbn [app]. rewrite <-Heq. split_and!; [done| |done].
      by apply all_space_cons.
    + exists []. split_and!; [done|apply all_space_nil|].
      intros c' [= <-]. by apply isspace_not_whitespace.
Qed.

Lemma rstrip_spec s :
  ∃ ws, s = rstrip s ++ ws ∧ all_space ws ∧
        (∀ c, last (rstrip s) = Some c → c ∉ whitespace) ∧
        (∀ c, head s = Some c → c ∉ whitespace → head (rstrip s) = Some c).
Proof.
  induction s as [|c s (ws & Heq & Hws & Hlast & Hfirst)].
  - exists []. split_and!; [done|apply all_space_nil|done..].
  - cbn [rstrip]. destruct (rstrip s) as [|k kept] eqn:Hr.
    + destruct (isspace c) eqn:Hc.
      * exists (c :: ws). cbn [app] in *. subst s.
        split_and!; [done| |done|].
        { by apply all_space_cons. }
        intros c' [= <-] Hnot. apply isspace_not_whitespace in Hnot. congruence.
      * exists ws. cbn [app] in *. subst s.
        split_and!; [done..| |by intros c' [= <-] _].
        intros c' [= <-]. by apply isspace_not_whitespace.
    + exists ws. cbn [app] in *. rewrite <-Heq.
      split_and!; [done..| |by intros c' [= <-] _].
      intros c' Hc'. apply Hlast. done.
Qed.

(** [strip] removes a run of whitespace at each end and leaves none at
    either end. *)
Lemma strip_spec s :
  ∃ l r, s = l ++ strip s ++ r ∧ all_space l ∧ all_space r ∧ trimmed (strip s).
Proof.
  unfold strip. destruct (lstrip_spec s) as (l & Hl & Hlws & Hfirst).
  destruct (rstrip_spec (lstrip s)) as (r & Hr & Hrws & Hlast & Hkeep).
  exists l, r. split_and!; [by rewrite <-Hr|done..|].
  split; [|done]. intros c Hc.
  destruct (lstrip s) as [|c0 t] eqn:Hls; [done|].
  specialize (Hfirst c0 eq_refl). rewrite (Hkeep c0 eq_refl Hfirst) in Hc.
  by injection Hc as <-.
Qed.



Lemma lstrip_trimmed s : (∀ c, head s = Some c → c ∉ whitespace) → lstrip s = s.
Proof.
  destruct s as [|c s]; [done|]. intros H. cbn [lstrip].
  by rewrite (proj2 (isspace_not_whitespace c) (H c eq_refl)).
Qed.

Lemma rstrip_trimmed s : (∀ c, last s = Some c → c ∉ whitespace) → rstrip s = s.
Proof.
  induction s as [|c s IH]; [done|]. intros H. cbn [rstrip].
  destruct s as [|c' s].
  - cbn [rstrip]. by rewrite (proj2 (isspace_not_whitespace c) (H c eq_refl)).
  - rewrite IH by (intros c0 Hc0; by apply H). done.
Qed.

Lemma strip_trimmed s : trimmed s → strip s = s.
Proof. intros [Hf Hl]. unfold strip. rewrite lstrip_trimmed by done. by apply rstrip_trimmed. Qed.


Lemma strip_cell_Ok c c' : strip_cell c = Ok c' → ∃ t, c = Text t ∧ c' = Text (strip t).
Proof. destruct c as [t| |z]; [|done..]. intros [= <-]. by exists t. Qed.

Lemma strip_cell_fails c : fails (strip_cell c) ↔ ∀ t, c ≠ Text t.
Proof.
  destruct c as [t| |z]; cbn [strip_cell].
  - split; [intros [e ?]; done|]. intros H. by destruct (H t).
  - split; [done|]. intros _. by eexists.
  - split; [done|]. intros _. by eexists.
Qed.

(** The conversion raises exactly when a kept column holds, below its
    first row, a cell that is not text. *)
Lemma convert_fails df :
  fails (convert df) ↔
  ∃ col c, col ∈ columns (dropna_columns_all df) ∧ c ∈ drop 1 (col_cells col) ∧
           ∀ t, c ≠ Text t.
Proof.
  unfold convert, map_cells. rewrite fails_bind_ret, mapM_fails.
  cbn [iloc_from_1 columns]. split.
  - intros (col' & Hin & Hfail). apply list_elem_of_fmap in Hin as (col & -> & Hin).
    rewrite fails_bind_ret, mapM_fails in Hfail. cbn [col_cells] in Hfail.
    destruct Hfail as (c & Hc & Hfail). exists col, c.
    split_and!; [done..|]. by apply strip_cell_fails.
  - intros (col & c & Hin & Hc & Hnot).
    exists {| col_name := col_name col; col_cells := drop 1 (col_cells col) |}.
    split; [apply list_elem_of_fmap; by exists col|].
    rewrite fails_bind_ret, mapM_fails. exists c. split; [done|]. by apply strip_cell_fails.
Qed.

Lemma map_cells_strip_Ok df df' :
  map_cells strip_cell df = Ok df' →
  index_name df' = index_name df ∧ index_cells df' = index_cells df ∧
  Forall2 stripped_column (columns df) (columns df').
Proof.
  unfold map_cells. destruct (mapM _ (columns df)) as [cols|e] eqn:Hcols; [|done].
  cbn. intros [= <-]. cbn. split_and!; [done..|].
  apply mapM_Ok_inv in Hcols. eapply Forall2_impl; [exact Hcols|].
  intros col col' Hcol. cbn beta in Hcol.
  destruct (mapM strip_cell (col_cells col)) as [cells|e] eqn:Hcells; [|done].
  cbn in Hcol. injection Hcol as <-. split; [done|]. cbn.
  apply mapM_Ok_inv in Hcells. eapply Forall2_impl; [exact Hcells|].
  intros c c'. apply strip_cell_Ok.
Qed.

Lemma elem_of_dropna_columns df col :
  col ∈ columns (dropna_columns_all df) ↔
  col ∈ columns df ∧ ∃ c, c ∈ col_cells col ∧ c ≠ NaN.
Proof.
  cbn [dropna_columns_all columns]. rewrite list_elem_of_filter.
  assert (forallb is_nan (col_cells col) = false ↔ ∃ c, c ∈ col_cells col ∧ c ≠ NaN)
    as ->; [|tauto].
  induction (col_cells col) as [|c cells IH]; cbn [forallb].
  - split; [done|]. intros (c & Hin & _). by apply elem_of_nil in Hin.
  - destruct c as [t| |z]; cbn [is_nan andb].
    + split; [|done]. intros _. exists (Text t). split; [by left|done].
    + rewrite IH. split.
      * intros (c & Hin & Hc). exists c. split; [by right|done].
      * intros (c & Hin & Hc). apply elem_of_cons in Hin as [->|Hin]; [done|]. eauto.
    + split; [|done]. intros _. exists (Number z). split; [by left|done].
Qed.






(** The same table, evaluated: the padded cell comes out as
    [Google One]. *)
Example md_to_df_example :
  let parsed :=
    {| index_name := " Rank ";
       index_cells := [Text "------"; Text " 1 "];
       columns := [ mkColumn "Unnamed: 0" [NaN; NaN];
                    mkColumn " App " [Text "-----";
                                      Text ((160 :: unicode_of_string " Google One") ++ [8195])%N];
                    mkColumn "Unnamed: 3" [NaN; NaN] ] |} in
  md_to_df (λ _ _ _, Ok parsed) (InStr "| Rank | App |")
  = Ok (InFrame {| index_name := " Rank ";
                   index_cells := [Text " 1 "];
                   columns := [ mkColumn " App " [Text "Google One"] ] |}).
Proof. vm_compute. reflexivity. Qed.

End TableFacts.

(** * Further properties *)

(** ** 04_exact_citations: multiplicity, the empty quote, re-validation *)

Module CitationMore.
Import Py TextFacts EffectFacts ExactCitations CitationFacts.

Lemma map_const_replicate {A B} (f : A → B) (c : B) (l : list A) :
  (∀ x, x ∈ l → f x = c) → map f l = replicate (length l) c.
Proof.
  induction l as [|x l IH]; intros Hf; [done|]. cbn.
  rewrite Hf by (by left). f_equal. apply IH. intros y Hy. apply Hf. by right.
Qed.

Lemma cited_replicate context quotes :
  cited context quotes
  = flat_map (λ q, replicate (length (finditer_escape q context)) q) quotes.
Proof.
  unfold cited. induction quotes as [|q quotes IH]; [done|]. cbn [map concat flat_map].
  rewrite map_app, IH. f_equal. apply map_const_replicate.
  intros sp Hsp. by apply finditer_escape_sound.
Qed.

Lemma length_flat_map_replicate {A} (count : A → nat) (l : list A) :
  length (flat_map (λ q, replicate (count q) q) l) = sum_list (map count l).
Proof.
  induction l as [|x l IH]; [done|]. cbn. by rewrite length_app, length_replicate, IH.
Qed.

(** X1.  With a context string, a validated [Fact] keeps its text, and
    its quote list holds every claimed quote once per match of the literal
    search, in the order of the claims: a quote found twice is listed
    twice, a quote not found is gone, and the new length is the total
    number of matches. *)
Theorem validated_quotes_multiplicity (d : gmap string val) (context : string) (self : Fact) :
  d !! "text_chunk" = Some (PyStr context) →
  ∃ validated,
    Fact_model_validate self (Some d) = Ok validated ∧
    fact validated = fact self ∧
    substring_quote validated
    = flat_map (λ q, replicate (length (finditer_escape q context)) q) (substring_quote self) ∧
    length (substring_quote validated)
    = sum_list (map (λ q, length (finditer_escape q context)) (substring_quote self)).
Proof.
  intros Hd. eexists. split; [by apply Fact_validate_sources_str|]. cbn.
  rewrite cited_replicate. split_and!; [done..|]. apply length_flat_map_replicate.
Qed.

Lemma validated_quotes_multiplicity_witness :
  let d : gmap string val := {[ "text_chunk" := PyStr "to be or not to be" ]} in
  let self := {| fact := "Hamlet hesitates"; substring_quote := ["to be"; "never"] |} in
  d !! "text_chunk" = Some (PyStr "to be or not to be") ∧
  ∃ validated,
    Fact_model_validate self (Some d) = Ok validated ∧
    fact validated = "Hamlet hesitates" ∧
    substring_quote validated
    = flat_map (λ q, replicate (length (finditer_escape q "to be or not to be")) q)
               ["to be"; "never"] ∧
    length (substring_quote validated)
    = sum_list (map (λ q, length (finditer_escape q "to be or not to be"))
                    ["to be"; "never"]).
Proof.
  intros d self.
  assert (Hd : d !! "text_chunk" = Some (PyStr "to be or not to be"))
    by apply lookup_singleton_eq.
  split; [exact Hd|]. exact (validated_quotes_multiplicity d "to be or not to be" self Hd).
Defined.

Lemma finditer_go_empty ctx pos :
  finditer_go "" ctx pos 0 = map (λ i, (i, i)) (seq pos (S (String.length ctx))).
Proof.
  revert pos. induction ctx as [|c ctx IH]; intros pos.
  - cbn. by rewrite Nat.add_0_r.
  - cbn [finditer_go String.prefix String.length pred]. rewrite IH. cbn. by rewrite Nat.add_0_r.
Qed.

Lemma cited_empty_quote context : cited context [""] = replicate (S (String.length context)) "".
Proof.
  rewrite cited_replicate. cbn [flat_map]. rewrite app_nil_r.
  unfold finditer_escape. by rewrite finditer_go_empty, length_map, length_seq.
Qed.

Lemma QuestionAnswer_model_validate_str (d : gmap string val) (context : string)
    (data : QuestionAnswer) :
  d !! "text_chunk" = Some (PyStr context) →
  QuestionAnswer_model_validate data (Some d)
  = Ok {| question := question data;
          answer := filter (λ f, 0 < length (substring_quote f))
                      (map (λ f, {| fact := fact f;
                                    substring_quote := cited context (substring_quote f) |})
                           (answer data)) |}.
Proof.
  intros Hd. unfold QuestionAnswer_model_validate.
  rewrite (mapM_Ok _ (λ f, {| fact := fact f;
                              substring_quote := cited context (substring_quote f) |}))
    by (intros; by apply Fact_validate_sources_str).
  done.
Qed.

(** X2.  The empty quote is never discarded: the literal search matches
    it at every position of the context, so it validates to one empty
    string per position, and a fact that claims it is always retained in
    the answer, whatever the context says. *)
Theorem empty_quote_always_verifies (d : gmap string val) (context : string)
    (data : QuestionAnswer) (f : Fact) :
  d !! "text_chunk" = Some (PyStr context) →
  f ∈ answer data → "" ∈ substring_quote f →
  cited context [""] = replicate (S (String.length context)) "" ∧
  ∃ qa kept,
    QuestionAnswer_model_validate data (Some d) = Ok qa ∧
    kept ∈ answer qa ∧ fact kept = fact f ∧ "" ∈ substring_quote kept.
Proof.
  intros Hd Hf Hq. split; [apply cited_empty_quote|].
  pose proof (QuestionAnswer_model_validate_str d context data Hd) as Hqa.
  eexists. exists {| fact := fact f; substring_quote := cited context (substring_quote f) |}.
  split; [exact Hqa|]. cbn [answer fact substring_quote].
  assert (Hin : "" ∈ cited context (substring_quote f)).
  { apply elem_of_cited. split; [done|]. apply occurs_empty. }
  split_and!; [|done..]. apply list_elem_of_filter. split.
  - cbn. destruct (cited context (substring_quote f)); [by apply elem_of_nil in Hin|]. cbn. lia.
  - apply list_elem_of_fmap. by exists f.
Qed.
Lemma empty_quote_always_verifies_witness :
  let d : gmap string val := {[ "text_chunk" := PyStr "abc" ]} in
  let f := {| fact := "Pigs fly"; substring_quote := [""] |} in
  let data := {| question := "Do pigs fly?"; answer := [f] |} in
  d !! "text_chunk" = Some (PyStr "abc") ∧ f ∈ answer data ∧ "" ∈ substring_quote f ∧
  ∃ qa kept,
    QuestionAnswer_model_validate data (Some d) = Ok qa ∧
    kept ∈ answer qa ∧ fact kept = "Pigs fly" ∧ "" ∈ substring_quote kept.
Proof.
  intros d f data.
  assert (Hd : d !! "text_chunk" = Some (PyStr "abc")) by apply lookup_singleton_eq.
  assert (Hf : f ∈ answer data) by (by left).
  assert (Hq : "" ∈ substring_quote f) by (by left).
  split_and!; [exact Hd|exact Hf|exact Hq|].
  exact (proj2 (empty_quote_always_verifies d "abc" data f Hd Hf Hq)).
Defined.

Lemma filter_all {A} (P : A → Prop) `{∀ x, Decision (P x)} (l : list A) :
  Forall P l → filter P l = l.
Proof.
  induction 1 as [|x l Hx Hl IH]; [done|]. rewrite filter_cons_True by done. by rewrite IH.
Qed.

(** X3.  Validation is stable: validating an already validated answer
    again with the same context loses no fact and no quote.  The facts and
    their texts are the same, every fact has the same set of quotes, and
    its quote list can only grow (a quote that occurs several times is
    multiplied again). *)
Theorem revalidation_keeps_every_fact (d : gmap string val) (context : string)
    (data qa : QuestionAnswer) :
  d !! "text_chunk" = Some (PyStr context) →
  QuestionAnswer_model_validate data (Some d) = Ok qa →
  ∃ again,
    QuestionAnswer_model_validate qa (Some d) = Ok again ∧
    question again = question qa ∧
    map fact (answer again) = map fact (answer qa) ∧
    Forall2 (λ f f', (∀ q, q ∈ substring_quote f' ↔ q ∈ substring_quote f) ∧
                     length (substring_quote f) ≤ length (substring_quote f'))
            (answer qa) (answer again).
Proof.
  intros Hd Hqa. rewrite (QuestionAnswer_model_validate_str d context data Hd) in Hqa.
  injection Hqa as <-. set (verify := λ f, {| fact := fact f;
    substring_quote := cited context (substring_quote f) |}).
  set (kept := filter (λ f, 0 < length (substring_quote f)) (map verify (answer data))).
  assert (Hkept : Forall (λ f, substring_quote f ≠ [] ∧
                               ∀ q, q ∈ substring_quote f → occurs q context) kept).
  { apply Forall_forall. intros f Hf. apply list_elem_of_filter in Hf as [Hlen Hf].
    apply list_elem_of_fmap in Hf as (f0 & -> & _). cbn in *. split.
    - intros Hnil. rewrite Hnil in Hlen. cbn in Hlen. lia.
    - intros q Hq. by apply elem_of_cited in Hq as [_ ?]. }
  assert (Hcount : ∀ f, f ∈ kept →
            length (substring_quote f) ≤ length (cited context (substring_quote f))).
  { intros f Hf. rewrite Forall_forall in Hkept. destruct (Hkept f Hf) as [_ Hocc].
    rewrite cited_replicate, length_flat_map_replicate.
    induction (substring_quote f) as [|q qs IH]; [done|]. cbn.
    assert (0 < length (finditer_escape q context)).
    { destruct (finditer_escape q context) eqn:Heq; [|cbn; lia].
      apply finditer_escape_nil in Heq. destruct Heq. apply Hocc. by left. }
    assert (length qs ≤ sum_list (map (λ q, length (finditer_escape q context)) qs)).
    { apply IH. intros q' Hq'. apply Hocc. by right. }
    lia. }
  eexists. split; [by apply QuestionAnswer_model_validate_str|]. cbn [question answer].
  fold verify. fold kept.
  assert (Hall : filter (λ f, 0 < length (substring_quote f)) (map verify kept)
                 = map verify kept).
  { apply filter_all, Forall_fmap, Forall_forall. intros f Hf. cbn.
    specialize (Hcount f Hf). rewrite Forall_forall in Hkept.
    destruct (Hkept f Hf) as [Hne _].
    assert (0 < length (substring_quote f)) by (destruct (substring_quote f); [done|cbn; lia]).
    lia. }
  rewrite Hall. split_and!; [done| |].
  - rewrite <-list_fmap_compose. done.
  - apply Forall2_fmap_r, Forall_Forall2_diag, Forall_forall. intros f Hf. cbn. split.
    + intros q. rewrite elem_of_cited. rewrite Forall_forall in Hkept.
      destruct (Hkept f Hf) as [_ Hocc]. split; [by intros [? _]|].
      intros Hq. split; [done|]. by apply Hocc.
    + by apply Hcount.
Qed.
Lemma revalidation_keeps_every_fact_witness :
  let d : gmap string val := {[ "text_chunk" := PyStr "to be or not to be" ]} in
  let data := {| question := "What is the question?";
                 answer := [ {| fact := "Being"; substring_quote := ["to be"] |};
                             {| fact := "Sleeping"; substring_quote := ["to sleep"] |} ] |} in
  let qa := {| question := "What is the question?";
               answer := [ {| fact := "Being"; substring_quote := ["to be"; "to be"] |} ] |} in
  d !! "text_chunk" = Some (PyStr "to be or not to be") ∧
  QuestionAnswer_model_validate data (Some d) = Ok qa ∧
  ∃ again,
    QuestionAnswer_model_validate qa (Some d) = Ok again ∧
    question again = question qa ∧
    map fact (answer again) = map fact (answer qa) ∧
    Forall2 (λ f f', (∀ q, q ∈ substring_quote f' ↔ q ∈ substring_quote f) ∧
                     length (substring_quote f) ≤ length (substring_quote f'))
            (answer qa) (answer again).
Proof.
  intros d data qa.
  assert (Hd : d !! "text_chunk" = Some (PyStr "to be or not to be"))
    by apply lookup_singleton_eq.
  assert (Hqa : QuestionAnswer_model_validate data (Some d) = Ok qa).
  { rewrite (QuestionAnswer_model_validate_str d _ data Hd). vm_compute. reflexivity. }
  split_and!; [exact Hd|exact Hqa|].
  exact (revalidation_keeps_every_fact d "to be or not to be" data qa Hd Hqa).
Defined.
End CitationMore.

(** ** 09_pii and 07_planning_tasks *)

Module ScrubMore.
Import Py TextFacts PII.

Lemma scrub_data_snoc (datas : list Data) (data : Data) (content : string) :
  scrub_data {| private_data := datas ++ [data] |} content
  = replace (scrub_data {| private_data := datas |} content)
            (pii_value data) (placeholder data (length datas)).
Proof. unfold scrub_data. cbn [private_data]. by rewrite enumerate_snoc, foldl_app. Qed.

Lemma length_replace_empty s new :
  String.length (replace s "" new)
  = String.length s + S (String.length s) * String.length new.
Proof.
  induction s as [|c s IH]; rewrite replace_empty_old.
  - cbn. lia.
  - rewrite length_app_s. cbn [String.length]. rewrite IH. lia.
Qed.

(** X4.  A document in which none of the extracted values occurs is
    returned unchanged by [scrub_data]. *)
Theorem scrub_data_absent_values (self : PIIDataExtraction) (content : string) :
  (∀ data, data ∈ private_data self → ¬ occurs (pii_value data) content) →
  scrub_data self content = content.
Proof.
  destruct self as [datas]. cbn [private_data].
  induction datas as [|data datas IH] using rev_ind; intros Habsent; [done|].
  rewrite scrub_data_snoc, IH.
  - apply replace_absent, Habsent, elem_of_app. right. by left.
  - intros d Hd. apply Habsent, elem_of_app. by left.
Qed.

Lemma scrub_data_absent_values_witness :
  let self := {| private_data := [ mkData 0 "name" "John"; mkData 1 "phone" "555" ] |} in
  (∀ data, data ∈ private_data self → ¬ occurs (pii_value data) "Nothing here.") ∧
  scrub_data self "Nothing here." = "Nothing here.".
Proof.
  intros self.
  assert (H : ∀ data, data ∈ private_data self → ¬ occurs (pii_value data) "Nothing here.").
  { intros data Hin. apply finditer_escape_nil.
    cbn in Hin. apply elem_of_cons in Hin as [->|Hin]; [by vm_compute|].
    apply list_elem_of_singleton in Hin as ->. by vm_compute. }
  split; [exact H|]. exact (scrub_data_absent_values self "Nothing here." H).
Defined.

(** X5.  Extending the extraction by one entry scrubs that entry's value
    from the document already scrubbed by the others, with the next
    position as placeholder number; nothing changes when the value does not
    occur there; and an empty value is not skipped: the placeholder is
    inserted before every character and at the end. *)
Theorem scrub_data_appended_entry (datas : list Data) (data : Data) (content : string) :
  let before := scrub_data {| private_data := datas |} content in
  let after := scrub_data {| private_data := datas ++ [data] |} content in
  after = replace before (pii_value data) (placeholder data (length datas)) ∧
  (¬ occurs (pii_value data) before → after = before) ∧
  (pii_value data = "" →
   String.length after
   = String.length before
     + S (String.length before) * String.length (placeholder data (length datas))).
Proof.
  intros before after. subst before after. rewrite scrub_data_snoc. split_and!.
  - done.
  - apply replace_absent.
  - intros ->. apply length_replace_empty.
Qed.
End ScrubMore.

Module PlanningFacts.
Import Py Planning.

Lemma filter_iff_on {A} (P Q : A → Prop) `{∀ x, Decision (P x)} `{∀ x, Decision (Q x)}
    (l : list A) :
  (∀ x, x ∈ l → P x ↔ Q x) → filter P l = filter Q l.
Proof.
  induction l as [|x l IH]; intros HPQ; [done|].
  assert (filter P l = filter Q l) as Hl by (apply IH; intros y Hy; apply HPQ; by right).
  destruct (decide (P x)) as [HP|HP].
  - rewrite !filter_cons_True; [by rewrite Hl|by apply HPQ; [left|]|done].
  - rewrite !filter_cons_False; [done| |done]. intros HQ. apply HP, HPQ; [by left|done].
Qed.

(** X6.  [_dependencies] returns queries of the plan in plan order (the
    order and the repetitions of [ids] play no role: the result depends on
    the set of ids only), exactly those whose id is listed; an id that
    names no query of the plan is ignored without error, and no ids give no
    queries. *)
Theorem dependencies_follow_the_plan (self : QueryPlan) (ids ids' : list Z) :
  _dependencies self ids `sublist_of` query_graph self ∧
  (∀ q, q ∈ _dependencies self ids ↔ q ∈ query_graph self ∧ id q ∈ ids) ∧
  ((∀ i, i ∈ ids ↔ i ∈ ids') → _dependencies self ids = _dependencies self ids') ∧
  (∀ unknown, unknown ∉ map id (query_graph self) →
     _dependencies self (unknown :: ids) = _dependencies self ids) ∧
  _dependencies self [] = [].
Proof.
  unfold _dependencies. split_and!.
  - apply sublist_filter.
  - intros q. rewrite list_elem_of_filter. tauto.
  - intros Hsame. apply list_filter_iff. intros q. apply Hsame.
  - intros unknown Hun. apply filter_iff_on. intros q Hq.
    rewrite elem_of_cons. split; [|by right]. intros [Heq|Hin]; [|done].
    destruct Hun. apply list_elem_of_fmap. by exists q.
  - induction (query_graph self) as [|q qs IH]; [done|].
    rewrite filter_cons_False; [done|]. apply not_elem_of_nil.
Qed.

Lemma NoDup_map_filter {A B} (f : A → B) (P : A → Prop) `{∀ x, Decision (P x)} (l : list A) :
  NoDup (map f l) → NoDup (map f (filter P l)).
Proof.
  induction l as [|x l IH]; [done|]. cbn [map]. intros [Hx Hl]%NoDup_cons.
  destruct (decide (P x)).
  - rewrite filter_cons_True by done. cbn [map]. apply NoDup_cons. split; [|by apply IH].
    intros (y & Hy & Hin)%list_elem_of_fmap. apply Hx, list_elem_of_fmap.
    exists y. split; [done|]. by apply list_elem_of_filter in Hin as [_ ?].
  - rewrite filter_cons_False by done. by apply IH.
Qed.

(** X7.  When the ids of the plan are unique, every listed id that the
    plan knows resolves to exactly one query: for distinct known ids the
    ids of the result are a permutation of the request, and the result is
    as long as the request. *)
Theorem dependencies_resolve_unique_ids (self : QueryPlan) (ids : list Z) :
  NoDup (map id (query_graph self)) → NoDup ids →
  (∀ i, i ∈ ids → i ∈ map id (query_graph self)) →
  map id (_dependencies self ids) ≡ₚ ids ∧
  length (_dependencies self ids) = length ids.
Proof.
  intros Hplan Hids Hknown.
  assert (Hperm : map id (_dependencies self ids) ≡ₚ ids).
  { apply NoDup_Permutation; [|done|].
    - by apply NoDup_map_filter.
    - intros i. unfold _dependencies. rewrite list_elem_of_fmap. split.
      + intros (q & -> & Hq). by apply list_elem_of_filter in Hq as [? _].
      + intros Hi. destruct (proj1 (list_elem_of_fmap _ _ _) (Hknown i Hi)) as (q & -> & Hq).
        exists q. split; [done|]. by apply list_elem_of_filter. }
  split; [done|]. by rewrite <-(length_map id), Hperm.
Qed.
Lemma dependencies_resolve_unique_ids_witness :
  let plan := {| query_graph := [ mkQuery 1 "Population of Canada?" [] SINGLE_QUESTION;
                                   mkQuery 2 "Home country of Jason?" [] SINGLE_QUESTION;
                                   mkQuery 3 "Difference?" [1%Z; 2%Z]
                                           MERGE_MULTIPLE_RESPONSES ] |} in
  NoDup (map id (query_graph plan)) ∧ NoDup [2%Z; 1%Z] ∧
  (∀ i, i ∈ [2%Z; 1%Z] → i ∈ map id (query_graph plan)) ∧
  length (_dependencies plan [2%Z; 1%Z]) = 2.
Proof.
  intros plan.
  assert (H1 : NoDup (map id (query_graph plan)))
    by (apply (bool_decide_unpack _); by vm_compute).
  assert (H2 : NoDup [2%Z; 1%Z]) by (apply (bool_decide_unpack _); by vm_compute).
  assert (H3 : ∀ i, i ∈ [2%Z; 1%Z] → i ∈ map id (query_graph plan)).
  { intros i [->|[->|[]%elem_of_nil]%elem_of_cons]%elem_of_cons;
      apply (bool_decide_unpack _); by vm_compute. }
  split_and!; [exact H1|exact H2|exact H3|].
  exact (proj2 (dependencies_resolve_unique_ids plan [2%Z; 1%Z] H1 H2 H3)).
Defined.
End PlanningFacts.

(** ** 06_knowledge_graph: drawing and building *)

Module BuildFacts.
Import Py EffectFacts TextFacts KnowledgeGraph KnowledgeGraphBuild.

Lemma draw_body (self : KnowledgeGraph) :
  draw self = map node_stmt (nodes self) ++ map edge_stmt (edges self).
Proof.
  unfold draw. rewrite <-!flat_map_singleton.
  assert (H : appends
    (sbind (for_each (nodes self) (λ node, add_stmt (node_stmt node)))
       (λ _, for_each (edges self) (λ edge, add_stmt (edge_stmt edge))))
    (flat_map (λ x, [node_stmt x]) (nodes self) ++ flat_map (λ x, [edge_stmt x]) (edges self))).
  { apply appends_sbind; [|intros _]; apply appends_for_each; by intros x s. }
  by rewrite H.
Qed.

(** Distinct nodes are drawn by distinct statements: [str] is injective
    on ints. *)
Lemma node_stmt_inj n1 n2 : node_stmt n1 = node_stmt n2 → n1 = n2.
Proof.
  destruct n1 as [i1 l1 c1], n2 as [i2 l2 c2]. unfold node_stmt. cbn. intros [= Hi -> ->].
  apply (inj pretty) in Hi. by subst.
Qed.

Lemma edge_stmt_inj e1 e2 : edge_stmt e1 = edge_stmt e2 → e1 = e2.
Proof.
  destruct e1 as [s1 t1 l1 c1], e2 as [s2 t2 l2 c2]. unfold edge_stmt. cbn.
  intros [= Hs Ht -> ->]. apply (inj pretty) in Hs. apply (inj pretty) in Ht. by subst.
Qed.

(** X9.  Drawing a merged graph declares everything once: whatever the
    iteration order of the hash set, the statements [draw] sends for
    [g.update(h)] hold no duplicate, a node is declared exactly when it is a
    node of [g] or of [h], an edge exactly when it is an edge of [g] or of
    [h], and there is one statement per node and per edge. *)
Theorem draw_of_update_declares_once
    (list_of_set : ∀ A : Type, EqDecision A → list A → list A)
    (g h : KnowledgeGraph) :
  set_semantics list_of_set →
  let merged := update list_of_set g h in
  NoDup (draw merged) ∧
  (∀ n, node_stmt n ∈ draw merged ↔ n ∈ nodes g ∨ n ∈ nodes h) ∧
  (∀ e, edge_stmt e ∈ draw merged ↔ e ∈ edges g ∨ e ∈ edges h) ∧
  length (draw merged) = length (nodes merged) + length (edges merged).
Proof.
  intros Hset merged. rewrite draw_body.
  assert (Hn : ∀ n e, node_stmt n ≠ edge_stmt e) by done.
  split_and!.
  - apply NoDup_app. split_and!.
    + apply NoDup_fmap_2_strong; [|apply Hset]. intros ?? _ _. apply node_stmt_inj.
    + intros x (n & -> & _)%list_elem_of_fmap (e & He & _)%list_elem_of_fmap. by destruct (Hn n e).
    + apply NoDup_fmap_2_strong; [|apply Hset]. intros ?? _ _. apply edge_stmt_inj.
  - intros n. rewrite elem_of_app. split.
    + intros [(n' & Heq & Hin)%list_elem_of_fmap|(e & Heq & _)%list_elem_of_fmap].
      * apply node_stmt_inj in Heq as <-. by apply (GraphFacts.elem_of_update_nodes _ Hset).
      * by destruct (Hn n e).
    + intros Hin. left. apply list_elem_of_fmap. exists n. split; [done|].
      by apply (GraphFacts.elem_of_update_nodes _ Hset).
  - intros e. rewrite elem_of_app. split.
    + intros [(n & Heq & _)%list_elem_of_fmap|(e' & Heq & Hin)%list_elem_of_fmap].
      * by destruct (Hn n e).
      * apply edge_stmt_inj in Heq as <-. by apply (GraphFacts.elem_of_update_edges _ Hset).
    + intros Hin. right. apply list_elem_of_fmap. exists e. split; [done|].
      by apply (GraphFacts.elem_of_update_edges _ Hset).
  - by rewrite length_app, !length_map.
Qed.

Section Builder.
Variable list_of_set : ∀ A : Type, EqDecision A → list A → list A.
Variable completion : nat → nat → string → KnowledgeGraph → KnowledgeGraph.
Hypothesis Hset : set_semantics list_of_set.


Lemma step_grows total state entry :
  (∀ n, n ∈ nodes state → n ∈ nodes (generate_graph_step list_of_set completion total state entry)) ∧
  (∀ e, e ∈ edges state → e ∈ edges (generate_graph_step list_of_set completion total state entry)).
Proof.
  destruct entry as [i inp]. unfold generate_graph_step. split.
  - intros n Hn. apply (GraphFacts.elem_of_update_nodes _ Hset). by left.
  - intros e He. apply (GraphFacts.elem_of_update_edges _ Hset). by left.
Qed.

Lemma run_grows total state entries :
  (∀ n, n ∈ nodes state → n ∈ nodes (foldl (generate_graph_step list_of_set completion total) state entries)) ∧
  (∀ e, e ∈ edges state → e ∈ edges (foldl (generate_graph_step list_of_set completion total) state entries)).
Proof.
  revert state. induction entries as [|entry entries IH]; intros state; [done|].
  cbn [foldl]. destruct (IH (generate_graph_step list_of_set completion total state entry)) as [IHn IHe].
  destruct (step_grows total state entry) as [Hn He]. split; auto.
Qed.

Lemma run_NoDup total state entries :
  NoDup (nodes state) → NoDup (edges state) →
  NoDup (nodes (foldl (generate_graph_step list_of_set completion total) state entries)) ∧
  NoDup (edges (foldl (generate_graph_step list_of_set completion total) state entries)).
Proof.
  revert state. induction entries as [|[i inp] entries IH]; intros state Dn De; [done|].
  cbn [foldl]. apply IH.
  - apply (GraphFacts.NoDup_update_nodes _ Hset).
  - apply (GraphFacts.NoDup_update_edges _ Hset).
Qed.
End Builder.

(** X8.  The iterative builder never loses anything and never
    duplicates: whatever the model returns at each part, the final graph
    has no duplicate node or edge, it contains every node and edge of the
    state reached before any part and every node and edge the model
    returned for that part, and for no input it is the empty graph. *)
Theorem generate_graph_accumulates
    (list_of_set : ∀ A : Type, EqDecision A → list A → list A)
    (completion : nat → nat → string → KnowledgeGraph → KnowledgeGraph)
    (input : list string) :
  set_semantics list_of_set →
  let result := generate_graph list_of_set completion input in
  let step := generate_graph_step list_of_set completion (length input) in
  NoDup (nodes result) ∧ NoDup (edges result) ∧
  (∀ before i inp after,
     enumerate input = before ++ (i, inp) :: after →
     let state := foldl step {| nodes := []; edges := [] |} before in
     let new_updates := completion i (length input) inp state in
     (∀ n, n ∈ nodes state ∨ n ∈ nodes new_updates → n ∈ nodes result) ∧
     (∀ e, e ∈ edges state ∨ e ∈ edges new_updates → e ∈ edges result)) ∧
  (input = [] → result = {| nodes := []; edges := [] |}).
Proof.
  intros Hset result step. subst result. unfold generate_graph. split_and!.
  - apply (run_NoDup _ _ Hset); constructor.
  - apply (run_NoDup _ _ Hset); constructor.
  - intros before i inp after Hsplit. cbv zeta. rewrite Hsplit, foldl_app.
    cbn [foldl]. fold step. set (state := foldl step _ before).
    destruct (run_grows _ completion Hset (length input) (step state (i, inp)) after)
      as [Hn He].
    split.
    + intros n Hin. apply Hn. unfold step, generate_graph_step.
      by apply (GraphFacts.elem_of_update_nodes _ Hset).
    + intros e Hin. apply He. unfold step, generate_graph_step.
      by apply (GraphFacts.elem_of_update_edges _ Hset).
  - by intros ->.
Qed.
Lemma draw_of_update_declares_once_witness :
  let a := mkNode 1 "Jason" "blue" in
  let b := mkNode 2 "Sarah" "red" in
  let ab := mkEdge 2 1 "knows" "black" in
  let g := mkKnowledgeGraph [a] [] in
  let h := mkKnowledgeGraph [b; a] [ab; ab] in
  set_semantics insertion_order ∧
  draw (update insertion_order g h)
  = [NodeAttr "1" "Jason" "blue"; NodeAttr "2" "Sarah" "red"; EdgeAttr "2" "1" "knows" "black"] ∧
  NoDup (draw (update insertion_order g h)).
Proof.
  intros a b ab g h. split; [exact GraphFacts.insertion_order_semantics|].
  split; [vm_compute; reflexivity|].
  exact (proj1 (draw_of_update_declares_once insertion_order g h
                  GraphFacts.insertion_order_semantics)).
Defined.

Lemma generate_graph_accumulates_witness :
  let a := mkNode 1 "Jason" "blue" in
  let b := mkNode 2 "Sarah" "red" in
  let model := λ (i total : nat) (inp : string) (state : KnowledgeGraph),
    mkKnowledgeGraph (if decide (i = 0) then [a] else [a; b]) [] in
  set_semantics insertion_order ∧
  generate_graph insertion_order model ["Jason is a physicist."; "Sarah knows Jason."]
  = mkKnowledgeGraph [a; b] [] ∧
  NoDup (nodes (generate_graph insertion_order model
                  ["Jason is a physicist."; "Sarah knows Jason."])).
Proof.
  intros a b model. split; [exact GraphFacts.insertion_order_semantics|].
  split; [vm_compute; reflexivity|].
  exact (proj1 (generate_graph_accumulates insertion_order model
                  ["Jason is a physicist."; "Sarah knows Jason."]
                  GraphFacts.insertion_order_semantics)).
Defined.
End BuildFacts.

(** ** 17_document_segmentation: numbered lines and sections *)

Module LineFacts.
Import Py TextFacts Vocabulary Segmentation SegmentationFacts.

Lemma has_char_app c a b : has_char c (a +:+ b) = has_char c a || has_char c b.
Proof.
  induction a as [|c' a IH]; [done|]. rewrite app_String. cbn [has_char].
  by rewrite IH, orb_assoc.
Qed.

Lemma split_no_sep sep s : has_char sep s = false → split sep s = [s].
Proof.
  induction s as [|c s IH]; [done|]. cbn [has_char split].
  intros [Hc Hs]%orb_false_elim. apply bool_decide_eq_false in Hc.
  rewrite decide_False by done. by rewrite IH.
Qed.

Lemma split_app_sep sep a b :
  has_char sep a = false → split sep (a +:+ String sep b) = a :: split sep b.
Proof.
  induction a as [|c a IH].
  - intros _. rewrite app_empty_l. cbn [split]. by rewrite decide_True.
  - cbn [has_char]. intros [Hc Ha]%orb_false_elim. apply bool_decide_eq_false in Hc.
    rewrite app_String. cbn [split]. rewrite decide_False by done. by rewrite IH.
Qed.

Lemma split_fields_no_sep sep s : Forall (λ f, has_char sep f = false) (split sep s).
Proof.
  induction s as [|c s IH]; [by repeat constructor|]. cbn [split].
  destruct (decide (c = sep)) as [->|Hc]; [by constructor|].
  destruct (split sep s) as [|f fs].
  { constructor; [|constructor]. cbn [has_char]. by rewrite bool_decide_eq_false_2. }
  apply Forall_cons in IH as [Hf Hfs]. constructor; [|done].
  cbn [has_char]. rewrite Hf. by rewrite bool_decide_eq_false_2.
Qed.

Lemma split_join sep (fields : list string) :
  fields ≠ [] → Forall (λ f, has_char sep f = false) fields →
  split sep (join (String sep "") fields) = fields.
Proof.
  induction fields as [|f fields IH]; [done|]. intros _ [Hf Hfs]%Forall_cons.
  destruct fields as [|f' fields].
  - by apply split_no_sep.
  - rewrite join_cons, app_String, app_empty_l, split_app_sep by done. f_equal. by apply IH.
Qed.

Lemma app_assoc_s s t u : (s +:+ t) +:+ u = s +:+ t +:+ u.
Proof. induction s as [|c s IH]; [done|]. by rewrite !app_String, IH. Qed.

Lemma join_app sep (l1 l2 : list string) :
  l1 ≠ [] → l2 ≠ [] → join sep (l1 ++ l2) = join sep l1 +:+ sep +:+ join sep l2.
Proof.
  induction l1 as [|x l1 IH]; [done|]. intros _ Hl2. destruct l1 as [|y l1].
  - destruct l2; [done|]. done.
  - change ((x :: y :: l1) ++ l2) with (x :: y :: (l1 ++ l2)).
    rewrite !join_cons. change (y :: l1 ++ l2) with ((y :: l1) ++ l2).
    rewrite IH by done. by rewrite !app_assoc_s.
Qed.

(** Decimal numerals hold no line feed. *)
Lemma pretty_N_go_no_newline (x : N) (s : string) :
  has_char "010" s = false → has_char "010" (pretty_N_go x s) = false.
Proof.
  revert s. induction (N.lt_wf_0 x) as [x _ IH]; intros s Hs.
  destruct (decide (0 < x)%N) as [Hx|Hx].
  - rewrite pretty_N_go_step by done. apply IH; [by apply N.div_lt|].
    cbn [has_char]. rewrite Hs. unfold pretty_N_char. by repeat case_match.
  - assert (x = 0%N) as -> by lia. by rewrite pretty_N_go_0.
Qed.

Lemma str_of_nat_no_newline (n : nat) : has_char "010" (str_of_nat n) = false.
Proof.
  unfold str_of_nat, pretty, pretty_nat, pretty, pretty_N.
  destruct (decide _); [done|]. by apply pretty_N_go_no_newline.
Qed.

Lemma numbered_line_no_newline i line :
  has_char "010" line = false → has_char "010" (numbered_line i line) = false.
Proof.
  intros Hl. unfold numbered_line.
  by rewrite !has_char_app, str_of_nat_no_newline, Hl.
Qed.

Lemma terminated_snoc (fields : list string) (f : string) :
  foldr (λ f r, f +:+ NL +:+ r) "" (fields ++ [f])
  = foldr (λ f r, f +:+ NL +:+ r) "" fields +:+ f +:+ NL.
Proof.
  induction fields as [|g fields IH]; cbn [foldr app].
  - by rewrite app_empty_r.
  - by rewrite IH, !app_assoc_s.
Qed.

Lemma split_terminated (fields : list string) :
  Forall (λ f, has_char "010" f = false) fields →
  split "010" (foldr (λ f r, f +:+ NL +:+ r) "" fields) = fields ++ [""].
Proof.
  induction 1 as [|f fields Hf _ IH]; [done|]. cbn [foldr app].
  unfold NL at 1. rewrite app_String, app_empty_l, split_app_sep by done. by rewrite IH.
Qed.

Lemma numbered_fold (lines : list string) :
  (foldl number_step ("", ∅) (enumerate lines)).1
  = foldr (λ f r, f +:+ NL +:+ r) "" (imap numbered_line lines).
Proof.
  induction lines as [|line lines IH] using rev_ind; [done|].
  rewrite enumerate_snoc, foldl_app, imap_app. cbn [foldl imap]. rewrite terminated_snoc.
  destruct (foldl number_step ("", ∅) (enumerate lines)) as [numbered line2text].
  cbn [number_step fst] in *. rewrite IH. unfold compose. rewrite Nat.add_0_r. unfold numbered_line.
  by rewrite !app_assoc_s.
Qed.

Lemma imap_numbered_no_newline (lines : list string) :
  Forall (λ f, has_char "010" f = false) lines →
  Forall (λ f, has_char "010" f = false) (imap numbered_line lines).
Proof.
  intros Hlines. apply Forall_forall. intros f Hf.
  apply list_elem_of_lookup in Hf as [i Hi]. rewrite list_lookup_imap in Hi.
  destruct (lines !! i) as [line|] eqn:Hline; [|done]. cbn in Hi. injection Hi as <-.
  apply numbered_line_no_newline. rewrite Forall_forall in Hlines.
  apply Hlines. by eapply list_elem_of_lookup_2.
Qed.

(** X10.  The numbered document has one line per document line, each
    terminated by a line feed: split at line feeds it gives the lines
    ["[i] " + line i] in order followed by one empty field, and the line
    printed with number [i] is the line the dictionary stores under [i]. *)
Theorem numbered_document_lines (document : string) :
  let lines := split "010" document in
  let numbered := (doc_with_lines document).1 in
  let line2text := (doc_with_lines document).2 in
  split "010" numbered = imap numbered_line lines ++ [""] ∧
  length (split "010" numbered) = S (length lines) ∧
  (∀ i line, lines !! i = Some line →
     split "010" numbered !! i = Some (numbered_line i line) ∧
     line2text !! Z.of_nat i = Some line).
Proof.
  intros lines numbered line2text.
  assert (Hsplit : split "010" numbered = imap numbered_line lines ++ [""]).
  { subst numbered. rewrite doc_with_lines_fold, numbered_fold.
    apply split_terminated, imap_numbered_no_newline, split_fields_no_sep. }
  split_and!.
  - done.
  - rewrite Hsplit, length_app, length_imap. cbn. lia.
  - intros i line Hline. split.
    + rewrite Hsplit, lookup_app_l by (rewrite length_imap; by eapply lookup_lt_Some).
      by rewrite list_lookup_imap, Hline.
    + subst line2text. rewrite doc_with_lines_fold, line2text_lookup.
      rewrite decide_True by lia. by rewrite Nat2Z.id.
Qed.

Lemma lines_in_range (lines : list string) (a b : Z) :
  (0 ≤ a ≤ b)%Z → (b ≤ Z.of_nat (length lines))%Z →
  map (line_or_empty lines) (range a b)
  = take (Z.to_nat (b - a)) (drop (Z.to_nat a) lines).
Proof.
  intros Hab Hb. unfold range. apply list_eq. intros i. rewrite list_lookup_fmap.
  destruct (decide (i < Z.to_nat (b - a))) as [Hi|Hi].
  - rewrite lookup_seqZ_lt by lia. cbn. rewrite lookup_take_lt, lookup_drop by done.
    unfold line_or_empty. rewrite decide_True by lia.
    replace (Z.to_nat (a + Z.of_nat i)) with (Z.to_nat a + i) by lia.
    destruct (lookup_lt_is_Some_2 lines (Z.to_nat a + i)) as [x ->]; [lia|done].
  - rewrite lookup_seqZ_ge by lia. cbn. by rewrite lookup_take_ge by lia.
Qed.

Lemma range_empty (a b : Z) : (b ≤ a)%Z → range a b = [].
Proof. intros Hba. unfold range. apply length_zero_iff_nil. rewrite length_seqZ. lia. Qed.

Lemma range_app (a b c : Z) : (a ≤ b ≤ c)%Z → range a c = range a b ++ range b c.
Proof.
  intros Habc. unfold range.
  replace (c - a)%Z with ((b - a) + (c - b))%Z by lia.
  rewrite seqZ_app by lia. do 2 f_equal; lia.
Qed.

Lemma sublist_lines_no_newline (lines : list string) n m :
  Forall (λ f, has_char "010" f = false) lines →
  Forall (λ f, has_char "010" f = false) (take n (drop m lines)).
Proof. intros H. by apply Forall_take, Forall_drop. Qed.

(** X11.  For every section, the segment carries the section's title; if
    its bounds lie within the document ([0 <= start < end <= number of
    lines]) the content, split at line feeds, is exactly the lines
    [start .. end-1] of the document; and if [end <= start] the content is
    empty. *)
Theorem in_bounds_section_resplits (document : string) (structured_doc : StructuredDocument) :
  let lines := split "010" document in
  let line2text := (doc_with_lines document).2 in
  Forall2 (λ s seg,
             seg_title seg = title s ∧
             ((0 ≤ start_index s < end_index s)%Z ∧
              (end_index s ≤ Z.of_nat (length lines))%Z →
              split "010" (seg_content seg)
              = take (Z.to_nat (end_index s - start_index s))
                     (drop (Z.to_nat (start_index s)) lines)) ∧
             ((end_index s ≤ start_index s)%Z → seg_content seg = ""))
          (sections structured_doc) (get_sections_text structured_doc line2text).
Proof.
  intros lines line2text. subst line2text. unfold get_sections_text.
  apply Forall2_fmap_r, Forall_Forall2_diag, Forall_forall. intros s _.
  unfold compose. cbn [seg_title seg_content].
  rewrite (map_ext _ _ (get_default_line document)). fold lines.
  split_and!.
  - done.
  - intros [Hse Hend]. rewrite lines_in_range by lia. apply split_join.
    + intros Hnil. apply (f_equal length) in Hnil.
      rewrite length_take, length_drop in Hnil. cbn in Hnil. lia.
    + apply sublist_lines_no_newline, split_fields_no_sep.
  - intros Hempty. by rewrite range_empty.
Qed.

Lemma covers_le from secs to : covers from secs to → (from ≤ to)%Z.
Proof.
  revert from. induction secs as [|s secs IH]; intros from; cbn [covers].
  - lia.
  - intros (_ & Hlt & Hrest). apply IH in Hrest. lia.
Qed.

Lemma range_nonempty (a b : Z) : (a < b)%Z → range a b ≠ [].
Proof.
  intros Hab Hnil. apply (f_equal length) in Hnil. unfold range in Hnil.
  rewrite length_seqZ in Hnil. cbn in Hnil. lia.
Qed.

Lemma join_cons_nonempty sep x (l : list string) :
  l ≠ [] → join sep (x :: l) = x +:+ sep +:+ join sep l.
Proof. by destruct l. Qed.

Lemma covering_contents (lines : list string) from secs to :
  secs ≠ [] → covers from secs to →
  join NL (map (λ s, join NL (map (line_or_empty lines)
                                  (range (start_index s) (end_index s)))) secs)
  = join NL (map (line_or_empty lines) (range from to)).
Proof.
  revert from. induction secs as [|s secs IH]; [done|]. intros from _.
  cbn [covers]. intros (<- & Hlt & Hrest). destruct secs as [|s' secs].
  - cbn [covers] in Hrest. by subst.
  - rewrite map_cons, join_cons_nonempty by done.
    rewrite (IH _ ltac:(done) Hrest).
    pose proof Hrest as Hle. cbn [covers] in Hle. destruct Hle as (Hs' & Hlt' & Hrest').
    apply covers_le in Hrest'.
    rewrite (range_app (start_index s) (end_index s) to) by lia.
    rewrite map_app, join_app; [done|..].
    + intros Hnil%fmap_nil_inv. by apply range_nonempty in Hnil.
    + intros Hnil%fmap_nil_inv. apply range_nonempty in Hnil; [done|lia].
Qed.

(** X12.  Sections that follow one another from line 0 to the number of
    lines, each starting where the previous one ended and holding at least
    one line, lose nothing: their contents joined by line feeds are the
    document. *)
Theorem covering_sections_round_trip (document : string) (secs : list DocSection) :
  let lines := split "010" document in
  let line2text := (doc_with_lines document).2 in
  covers 0 secs (Z.of_nat (length lines)) →
  join NL (map seg_content (get_sections_text {| sections := secs |} line2text)) = document.
Proof.
  intros lines line2text Hcov.
  assert (Hne : secs ≠ []).
  { intros ->. cbn in Hcov. pose proof (split_nonempty "010" document).
    subst lines. destruct (split "010" document); [done|]. cbn in Hcov. lia. }
  unfold get_sections_text. cbn [sections]. rewrite <-list_fmap_compose.
  erewrite (map_ext _ (λ s, join NL (map (line_or_empty lines)
                                         (range (start_index s) (end_index s))))).
  - rewrite (covering_contents lines 0 secs _ Hne Hcov).
    rewrite lines_of_full_range. apply join_split.
  - intros s. cbn. f_equal. apply map_ext, get_default_line.
Qed.

Lemma covering_sections_round_trip_witness :
  let document := "a" +:+ NL +:+ "b" +:+ NL +:+ "c" in
  let secs := [mkDocSection "head" 0 2; mkDocSection "tail" 2 3] in
  covers 0 secs (Z.of_nat (length (split "010" document))) ∧
  join NL (map seg_content
             (get_sections_text {| sections := secs |} (doc_with_lines document).2))
  = document.
Proof.
  intros document secs.
  assert (H : covers 0 secs (Z.of_nat (length (split "010" document))))
    by (cbn; repeat split; lia).
  split; [exact H|]. exact (covering_sections_round_trip document secs H).
Defined.
End LineFacts.

(** ** Dependency graphs: which end of an edge is declared *)

Module EndpointFacts.
Import Py EffectFacts Graphviz RenderFacts.

(** X13.  In the entity graph only the head of an edge can dangle: every
    edge starts at a declared node; the body holds one statement per
    entity and one per listed dependency, and no node statement follows an
    edge statement. *)
Theorem entity_edges_start_at_declared_nodes (data : EntityResolution.DocumentExtraction) :
  (∀ t h, (t, h) ∈ edges (EntityResolution.generate_graph data) →
          t ∈ node_names (EntityResolution.generate_graph data)) ∧
  length (EntityResolution.generate_graph data)
  = length (EntityResolution.entities data)
    + sum_list (map (λ e, length (EntityResolution.dependencies e))
                    (EntityResolution.entities data)) ∧
  (∀ before after e, EntityResolution.generate_graph data = before ++ e :: after →
     (∃ t h, e = EdgeStmt t h) → ∀ n l, NodeStmt n l ∉ after).
Proof.
  rewrite generate_graph_body. split_and!.
  - intros t h. rewrite edges_app, node_names_app.
    unfold EntityResolution.entity_node. rewrite edges_NodeStmts, node_names_NodeStmts.
    rewrite app_nil_l, edges_flat_map. intros Hin. apply elem_of_app. left.
    apply list_elem_of_In, in_flat_map in Hin as (e & He & Hin).
    unfold EntityResolution.dependency_edges in Hin.
    rewrite (edges_EdgeStmts (λ _, str_of_int (EntityResolution.id e)) str_of_int) in Hin.
    apply list_elem_of_In, list_elem_of_fmap in Hin as (dep & [= -> ->] & _).
    apply list_elem_of_fmap. exists e. split; [done|]. by apply list_elem_of_In.
  - rewrite length_app, length_map. f_equal.
    induction (EntityResolution.entities data) as [|e es IH]; [done|].
    cbn [flat_map map sum_list]. rewrite length_app, IH.
    unfold EntityResolution.dependency_edges. by rewrite length_map.
  - intros before after e Hsplit (t & h & ->) n l Hin.
    assert (Hedges : Forall (λ s, ∃ t h, s = EdgeStmt t h)
              (flat_map EntityResolution.dependency_edges (EntityResolution.entities data))).
    { apply Forall_forall. intros s Hs.
      apply list_elem_of_In, in_flat_map in Hs as (e & _ & Hs).
      apply list_elem_of_In, list_elem_of_fmap in Hs as (dep & -> & _). eauto. }
    assert (Hnodes : Forall (λ s, ∃ n l, s = NodeStmt n l)
              (map EntityResolution.entity_node (EntityResolution.entities data))).
    { apply Forall_forall. intros s (e & -> & _)%list_elem_of_fmap.
      unfold EntityResolution.entity_node. eauto. }
    set (ns := map EntityResolution.entity_node (EntityResolution.entities data)) in *.
    set (es := flat_map EntityResolution.dependency_edges (EntityResolution.entities data)) in *.
    clearbody ns es. revert before Hsplit.
    induction ns as [|s ns IH]; intros before Hsplit.
    + cbn in Hsplit. subst es. rewrite Forall_app, Forall_cons in Hedges.
      destruct Hedges as (_ & _ & Hafter). rewrite Forall_forall in Hafter.
      destruct (Hafter _ Hin) as (? & ? & ?). done.
    + apply Forall_cons in Hnodes as [(n' & l' & ->) Hnodes].
      destruct before as [|b before]; [done|]. cbn in Hsplit. injection Hsplit as _ Hsplit.
      by apply (IH Hnodes before).
Qed.

Lemma edges_cons_node n l (dot : Digraph) : edges (NodeStmt n l :: dot) = edges dot.
Proof. done. Qed.
Lemma node_names_cons_node n l (dot : Digraph) :
  node_names (NodeStmt n l :: dot) = n :: node_names dot.
Proof. done. Qed.

(** X14.  In the action-items graph only the tail of an edge can dangle:
    every edge, to a subtask or from a dependency, ends at a declared node,
    and every ticket has its node. *)
Theorem action_item_edges_end_at_declared_nodes
    (format_priority : ActionItems.PriorityEnum → string)
    (prediction : list ActionItems.Ticket) :
  let dot := ActionItems.action_items_graph format_priority prediction in
  (∀ t h, (t, h) ∈ edges dot → h ∈ node_names dot) ∧
  (∀ ticket, ticket ∈ prediction → str_of_int (ActionItems.id ticket) ∈ node_names dot).
Proof.
  intros dot. subst dot. rewrite action_items_graph_body.
  rewrite edges_flat_map, node_names_flat_map.
  assert (Hticket : ∀ ticket t h,
            (t, h) ∈ edges (ActionItems.ticket_stmts format_priority ticket) →
            h ∈ node_names (ActionItems.ticket_stmts format_priority ticket)).
  { intros ticket t h. unfold ActionItems.ticket_stmts.
    rewrite edges_cons_node, node_names_cons_node, edges_app, node_names_app.
    intros [Hsub|Hdep]%elem_of_app.
    - right. apply elem_of_app. left. unfold ActionItems.subtask_stmts in *.
      rewrite edges_flat_map in Hsub. rewrite node_names_flat_map.
      apply list_elem_of_In, in_flat_map in Hsub as (st & Hst & Hsub).
      apply list_elem_of_In, in_flat_map. exists st. split; [done|].
      cbn in Hsub. destruct Hsub as [[= <- <-]|[]].
      cbn. by left.
    - unfold ActionItems.dependency_edges in Hdep.
      rewrite (edges_EdgeStmts str_of_int (λ _, str_of_int (ActionItems.id ticket))) in Hdep.
      apply list_elem_of_fmap in Hdep as (dep & [= -> ->] & _). by left. }
  split.
  - intros t h Hin. apply list_elem_of_In, in_flat_map in Hin as (ticket & Hticket_in & Hin).
    apply list_elem_of_In, in_flat_map. exists ticket. split; [done|].
    apply list_elem_of_In. eapply Hticket. by apply list_elem_of_In.
  - intros ticket Hin. apply list_elem_of_In, in_flat_map. exists ticket.
    split; [by apply list_elem_of_In|]. unfold ActionItems.ticket_stmts.
    rewrite node_names_cons_node. by left.
Qed.
End EndpointFacts.

(** ** 12_extracting_tables and the vision notebook *)

Module FrameFacts.
Import Py EffectFacts TextFacts Tables TableType TableFacts.

(** X15.  What the [MarkdownDataFrame] type accepts: a frame is taken as
    it is (nothing is dropped or stripped); [None] and numbers pass
    [md_to_df] unchanged and are then rejected as not being frames; a
    string is parsed and converted, and a [Table] built from it fails
    exactly when the parser does or a kept column holds a non-text cell
    below its first row. *)
Theorem frame_type_accepts_frames_and_tables
    (read_csv : unicode → unicode → nat → result DataFrame)
    (caption : string) (data : input) :
  match data with
  | InFrame df =>
      MarkdownDataFrame_validate read_csv data = Ok df ∧
      Table_new read_csv caption data = Ok {| caption := caption; dataframe := df |}
  | InNone | InInt _ =>
      fails (MarkdownDataFrame_validate read_csv data) ∧
      fails (Table_new read_csv caption data)
  | InStr s =>
      MarkdownDataFrame_validate read_csv data = (df ← read_csv s "|" 1; convert df) ∧
      (fails (Table_new read_csv caption data) ↔
       fails (read_csv s "|" 1) ∨
       ∃ df col c, read_csv s "|" 1 = Ok df ∧
                   col ∈ columns (dropna_columns_all df) ∧ c ∈ drop 1 (col_cells col) ∧
                   ∀ t, c ≠ Text t)
  end.
Proof.
  destruct data as [s| |z|df].
  - unfold Table_new, MarkdownDataFrame_validate, md_to_df. fold (convert).
    destruct (read_csv s "|" 1) as [df|e] eqn:Hread; cbn [mbind result_bind].
    + change (map_cells strip_cell (iloc_from_1 (dropna_columns_all df))) with (convert df).
      split; [by destruct (convert df)|].
      pose proof (convert_fails df) as Hfails.
      destruct (convert df) as [out|e]; cbn [mbind result_bind mret result_ret].
      * split; [intros [e ?]; done|]. intros [[e ?]|(df' & col & c & [= <-] & Hbad)]; [done|].
        destruct (proj2 Hfails) as [e He]; [eauto|done].
      * split; [|intros _; by eexists]. intros _. right.
        destruct (proj1 Hfails) as (col & c & ?); [by eexists|]. exists df, col, c. eauto.
    + split; [done|]. split; [|intros _; by eexists]. intros _. left. by eexists.
  - split; by eexists.
  - split; by eexists.
  - done.
Qed.

(** X16.  A converted frame is clean: every cell is text with no
    whitespace at either end, so stripping its cells again changes nothing;
    and if every column of the parsed frame is as long as its index, so is
    every column of the result. *)
Theorem converted_frame_is_clean (df out : DataFrame) :
  convert df = Ok out →
  (∀ col c, col ∈ columns out → c ∈ col_cells col → ∃ t, c = Text t ∧ trimmed t) ∧
  map_cells strip_cell out = Ok out ∧
  ((∀ col0, col0 ∈ columns df → length (col_cells col0) = length (index_cells df)) →
   ∀ col, col ∈ columns out → length (col_cells col) = length (index_cells out)).
Proof.
  intros Hconv. unfold convert in Hconv.
  apply map_cells_strip_Ok in Hconv as (Hname & Hindex & Hcols).
  assert (Hclean : ∀ col c, col ∈ columns out → c ∈ col_cells col → ∃ t, c = Text t ∧ trimmed t).
  { intros col c Hcol Hc.
    apply list_elem_of_lookup_1 in Hcol as [k Hk].
    destruct (Forall2_lookup_r _ _ _ _ _ Hcols Hk) as (col0 & _ & _ & Hcells).
    apply list_elem_of_lookup_1 in Hc as [j Hj].
    destruct (Forall2_lookup_r _ _ _ _ _ Hcells Hj) as (c0 & _ & t & _ & ->).
    exists (strip t). split; [done|]. by destruct (strip_spec t) as (l & r & _ & _ & _ & ?). }
  split_and!.
  - done.
  - unfold map_cells.
    rewrite (mapM_Ok _ id).
    + cbn. rewrite map_id. by destruct out.
    + intros col Hcol. rewrite (mapM_Ok _ id).
      * cbn. rewrite map_id. by destruct col.
      * intros c Hc. destruct (Hclean col c Hcol Hc) as (t & -> & Ht). cbn.
        by rewrite strip_trimmed.
  - intros Hrect col Hcol. apply list_elem_of_lookup_1 in Hcol as [k Hk].
    destruct (Forall2_lookup_r _ _ _ _ _ Hcols Hk) as (col1 & Hk1 & _ & Hcells).
    cbn [iloc_from_1 columns] in Hk1. rewrite list_lookup_fmap in Hk1.
    destruct (columns (dropna_columns_all df) !! k) as [col0|] eqn:Hk0; [|done].
    cbn in Hk1. injection Hk1 as <-. cbn [col_cells] in Hcells.
    apply Forall2_length in Hcells. rewrite <-Hcells, Hindex.
    cbn [iloc_from_1 index_cells dropna_columns_all]. rewrite !length_drop.
    rewrite Hrect; [done|]. apply list_elem_of_lookup_2 in Hk0.
    by apply elem_of_dropna_columns in Hk0 as [? _].
Qed.

Lemma converted_frame_is_clean_witness :
  let parsed :=
    {| index_name := " Rank ";
       index_cells := [Text "------"; Text " 1 "];
       columns := [ mkColumn "Unnamed: 0" [NaN; NaN];
                    mkColumn " App " [Text "-----";
                                      Text ((160 :: unicode_of_string " Google One") ++ [8195])%N] ] |} in
  let out := {| index_name := " Rank ";
                index_cells := [Text " 1 "];
                columns := [ mkColumn " App " [Text "Google One"] ] |} in
  convert parsed = Ok out ∧ map_cells strip_cell out = Ok out.
Proof.
  intros parsed out.
  assert (H : convert parsed = Ok out) by (vm_compute; reflexivity).
  split; [exact H|]. exact (proj1 (proj2 (converted_frame_is_clean parsed out H))).
Defined.
End FrameFacts.

Module PromptFacts.
Import Py TextFacts Vision.

Lemma last_char_app_NL s : Tables.last_char (s +:+ NL) = Some "010"%char.
Proof.
  induction s as [|c s IH]; [done|]. rewrite app_String. cbn [Tables.last_char].
  destruct (s +:+ NL) eqn:Heq; [by destruct s|]. done.
Qed.

(** X17.  [generate_prompt] treats an absent and an empty optional field
    alike; the prompt always starts with the product line and ends with a
    line feed; and it is the product line alone exactly when the
    description and the key features are both absent or empty. *)
Theorem prompt_omits_empty_fields (self : Product) :
  let normal :=
    {| name := name self;
       key_features := match key_features self with Some [] => None | other => other end;
       description := match description self with Some "" => None | other => other end |} in
  generate_prompt self = generate_prompt normal ∧
  (∃ rest, generate_prompt self = "Product: " +:+ name self +:+ NL +:+ rest) ∧
  Tables.last_char (generate_prompt self) = Some "010"%char ∧
  (generate_prompt self = "Product: " +:+ name self +:+ NL ↔
   key_features normal = None ∧ description normal = None).
Proof.
  intros normal. subst normal. destruct self as [n kf d]. unfold generate_prompt.
  cbn [name key_features description].
  set (head := "Product: " +:+ n +:+ NL).
  assert (Hlen : ∀ extra, extra ≠ "" → head +:+ extra ≠ head).
  { intros extra Hextra Heq. apply (f_equal String.length) in Heq.
    rewrite length_app_s in Heq. destruct extra; [done|]. cbn in Heq. lia. }
  assert (Hassoc : ∀ a b c, (a +:+ b) +:+ c = a +:+ b +:+ c).
  { intros a b c. induction a as [|x a IH]; [done|]. by rewrite !app_String, IH. }
  assert (Hhead : ∀ rest, head +:+ rest = "Product: " +:+ n +:+ NL +:+ rest).
  { intros rest. unfold head. by rewrite !Hassoc. }
  destruct d as [[|c d]|], kf as [[|f kf]|]; split_and!; try done;
    try (exists ""; by rewrite app_empty_r);
    try (eexists; rewrite ?Hassoc; apply Hhead);
    try (rewrite <-?Hassoc; apply last_char_app_NL);
    try (split; [|by intros [??]]; intros Heq; exfalso;
         rewrite ?Hassoc in Heq; by apply Hlen in Heq).
  - change (Tables.last_char head = Some "010"%char). unfold head.
    rewrite <-Hassoc. apply last_char_app_NL.
  - change (Tables.last_char head = Some "010"%char). unfold head.
    rewrite <-Hassoc. apply last_char_app_NL.
  - change (Tables.last_char head = Some "010"%char). unfold head.
    rewrite <-Hassoc. apply last_char_app_NL.
  - change (Tables.last_char head = Some "010"%char). unfold head.
    rewrite <-Hassoc. apply last_char_app_NL.
Qed.
End PromptFacts.
